(** * Shallow embedding of name_generator_enhanced.py (pybook)

    Python strings are sequences of code points; a string is modelled as a
    list of code points ([ustr]).  Python ints are [Z].  The three Counter
    objects of the program are association lists kept in insertion order,
    the order in which [Counter.keys()] and [Counter.values()] list them. *)

From Stdlib Require Import List String Ascii ZArith Bool Lia Sorted Permutation.
Import ListNotations.
Open Scope Z_scope.

(** ** Strings *)

Definition ustr := list Z.

(** An ASCII literal as a code-point string (used for constants). *)
Definition u (s : string) : ustr :=
  map (fun a => Z.of_nat (nat_of_ascii a)) (list_ascii_of_string s).

(** [VOWELS = set("aeiouAEIOUáéíóúÁÉÍÓÚàèìòùÀÈÌÒÙâêîôûÂÊÎÔÛäëïöüÄËÏÖÜyY")] *)
Definition VOWELS : list Z :=
  [97; 101; 105; 111; 117; 65; 69; 73; 79; 85;
   225; 233; 237; 243; 250; 193; 201; 205; 211; 218;
   224; 232; 236; 242; 249; 192; 200; 204; 210; 217;
   226; 234; 238; 244; 251; 194; 202; 206; 212; 219;
   228; 235; 239; 246; 252; 196; 203; 207; 214; 220;
   121; 89].

Definition is_vowel (ch : Z) : bool := existsb (Z.eqb ch) VOWELS.

(** The code points for which [str.isspace] holds: what [str.strip()]
    removes at both ends. *)
Definition WHITESPACE : list Z :=
  [9; 10; 11; 12; 13; 28; 29; 30; 31; 32; 133; 160; 5760;
   8192; 8193; 8194; 8195; 8196; 8197; 8198; 8199; 8200; 8201; 8202;
   8232; 8233; 8239; 8287; 12288].

Definition is_space (ch : Z) : bool := existsb (Z.eqb ch) WHITESPACE.

Fixpoint lstrip (s : ustr) : ustr :=
  match s with
  | [] => []
  | c :: s' => if is_space c then lstrip s' else s
  end.

Definition rstrip (s : ustr) : ustr := rev (lstrip (rev s)).

(** [str.strip()] *)
Definition strip (s : ustr) : ustr := rstrip (lstrip s).

(** Python index normalisation for slices: negative indices count from
    the end, and both ends are clamped to [0, len]. *)
Definition py_norm (n i : Z) : Z :=
  if i <? 0 then Z.max 0 (i + n) else Z.min i n.

(** [s[i:j]] *)
Definition py_slice {A} (s : list A) (i j : Z) : list A :=
  let n := Z.of_nat (List.length s) in
  let i' := py_norm n i in
  let j' := py_norm n j in
  firstn (Z.to_nat (j' - i')) (skipn (Z.to_nat i') s).

(** [s[i]] for an index in range (negative counts from the end); the
    only uses are guarded by [n >= 3], so the IndexError case of Python
    is never reached. *)
Definition py_getitem (s : ustr) (i : Z) : Z :=
  let n := Z.of_nat (List.length s) in
  nth (Z.to_nat (if i <? 0 then i + n else i)) s 0.

(** Python's [round] on the exact rational [a / b] (b > 0): round half
    to even.  For [round(n * 0.30)] and [round(n * 0.20)] the float
    product rounds the same way as the exact value [3n/10], [2n/10]. *)
Definition py_round (a b : Z) : Z :=
  let q := a / b in
  let r := a mod b in
  if b <? 2 * r then q + 1
  else if 2 * r <? b then q
  else if Z.even q then q else q + 1.

(** ** Splitting heuristic *)

Fixpoint vowel_positions_from (i : Z) (name : ustr) : list Z :=
  match name with
  | [] => []
  | ch :: rest =>
      if is_vowel ch then i :: vowel_positions_from (i + 1) rest
      else vowel_positions_from (i + 1) rest
  end.

(** [vowel_positions(name) = [i for i, ch in enumerate(name) if ch in VOWELS]] *)
Definition vowel_positions (name : ustr) : list Z := vowel_positions_from 0 name.

(** The [while pref_len + suff_len >= n] loop of the fallback split.
    Every iteration that does not break lowers [pref_len + suff_len] by
    one, so [pref_len + suff_len] iterations are enough
    ([shrink_exits] below). *)
Fixpoint shrink (fuel : nat) (n pref_len suff_len : Z) : Z * Z :=
  match fuel with
  | O => (pref_len, suff_len)
  | S fuel' =>
      if n <=? pref_len + suff_len then
        if 1 <? suff_len then shrink fuel' n pref_len (suff_len - 1)
        else if 1 <? pref_len then shrink fuel' n (pref_len - 1) suff_len
        else (pref_len, suff_len)
      else (pref_len, suff_len)
  end.

(** [split_name(name) -> (prefix, middle, suffix)] *)
Definition split_name (name0 : ustr) : ustr * ustr * ustr :=
  let name := strip name0 in
  let n := Z.of_nat (List.length name) in
  if n =? 0 then ([], [], []) else
  let v_pos := vowel_positions name in
  if 2 <=? Z.of_nat (List.length v_pos) then
    let first_v := nth 0 v_pos 0 in
    let last_v := last v_pos 0 in
    let prefix := py_slice name 0 (first_v + 1) in
    let suffix := py_slice name last_v n in
    let middle := py_slice name (first_v + 1) last_v in
    (prefix, middle, suffix)
  else if (Z.of_nat (List.length v_pos) =? 1) && (3 <=? n) then
    let prefix := [py_getitem name 0] in
    let suffix := [py_getitem name (-1)] in
    let middle := py_slice name 1 (-1) in
    (prefix, middle, suffix)
  else
    let pref_len0 := Z.max 1 (py_round (n * 3) 10) in
    let suff_len0 := Z.max 1 (py_round (n * 2) 10) in
    let '(pref_len, suff_len) :=
      shrink (Z.to_nat (pref_len0 + suff_len0)) n pref_len0 suff_len0 in
    let prefix := py_slice name 0 pref_len in
    let suffix := py_slice name (- suff_len) n in
    let middle :=
      if pref_len + suff_len <? n then py_slice name pref_len (- suff_len)
      else [] in
    (prefix, middle, suffix).

(** ** The syllable-greedy segmentation described by the spec (section 4.1),
    kept apart from [split_name] to compare the two. *)

Fixpoint syllables_acc (cur : ustr) (s : ustr) : list ustr :=
  match s with
  | [] => match cur with [] => [] | _ => [cur] end
  | ch :: rest =>
      if is_vowel ch then (cur ++ [ch]) :: syllables_acc [] rest
      else syllables_acc (cur ++ [ch]) rest
  end.

Definition syllables (s : ustr) : list ustr := syllables_acc [] s.

Definition segment_by_syllables (s : ustr) : ustr * ustr * ustr :=
  match syllables s with
  | [] => ([], [], [])
  | [a] => (a, [], [])
  | [a; b] => (a, [], b)
  | a :: rest => (a, List.concat (removelast rest), last rest [])
  end.

(** ** Pooling phase *)

(** A [Counter]: keys in insertion order with their counts. *)
Definition counter := list (ustr * Z).

(** [c[k] += 1]: a missing key reads as 0 and is appended with count 1;
    a present key keeps its place. *)
Fixpoint counter_incr (k : ustr) (c : counter) : counter :=
  match c with
  | [] => [(k, 1)]
  | (k', v) :: c' =>
      if list_eq_dec Z.eq_dec k k' then (k', v + 1) :: c'
      else (k', v) :: counter_incr k c'
  end.

(** Truth value of a [Counter] or a [str]: non-empty. *)
Definition truthy {A} (l : list A) : bool :=
  match l with [] => false | _ => true end.

Inductive exn :=
| ValueError (msg : string)
| RuntimeError (msg : string)
| IndexError (msg : string).

Definition insufficient_msg : string := "Insufficient data after preprocessing.".
Definition bounds_msg : string :=
  "Unable to build a name within the requested length bounds.".

Definition pools := (counter * counter * counter)%type.

(** One iteration of [for raw in names]. *)
Definition add_name (acc : pools) (raw : ustr) : pools :=
  let '(p_counter, m_counter, s_counter) := acc in
  let '(p, m, s) := split_name raw in
  (if truthy p then counter_incr p p_counter else p_counter,
   if truthy m then counter_incr m m_counter else m_counter,
   if truthy s then counter_incr s s_counter else s_counter).

Definition build_loop (names : list ustr) : pools :=
  fold_left add_name names ([], [], []).

(** [build_weighted_pools(names)] *)
Definition build_weighted_pools (names : list ustr) : pools + exn :=
  let '(p_counter, m_counter, s_counter) := build_loop names in
  if negb (truthy p_counter && truthy m_counter && truthy s_counter)
  then inr (ValueError insufficient_msg)
  else inl (p_counter, m_counter, s_counter).

(** ** A state and exception monad: Python statements thread a state and
    may raise; a raised exception keeps the state reached so far. *)

Definition M (S A : Type) := S -> (A + exn) * S.

Definition ret {S A} (a : A) : M S A := fun st => (inl a, st).

Definition bind {S A B} (m : M S A) (k : A -> M S B) : M S B :=
  fun st =>
    match m st with
    | (inl a, st') => k a st'
    | (inr e, st') => (inr e, st')
    end.

Definition throw {S A} (e : exn) : M S A := fun st => (inr e, st).

Notation "x <- m ;; k" := (bind m (fun x => k))
  (at level 61, m at next level, right associativity).
Notation "m ;;; k" := (bind m (fun _ => k))
  (at level 61, right associativity).

(** ** The module-level pseudorandom source of [random]

    [random()] returns a float [d] in [0, 1); [random.choices] only uses
    it through [floor(d * total)] for the integer [total] of the weights
    ([x < c] holds for an integer [c] iff [floor x < c]).  [seed_state s]
    is the state set by [random.seed(s)]. *)
Record random_source := {
  rng : Type;
  draw : Type;
  random : rng -> draw * rng;
  floor_scaled : draw -> Z -> Z;
  seed_state : Z -> rng
}.

Section Engine.

Variable R : random_source.

(** The objects of a generation session: the three Counter objects built
    by [build_weighted_pools] (the store), the state of the random module,
    and what has been printed on stdout (one entry per [print]). *)
Record world := mkWorld {
  store : pools;
  rnd : rng R;
  out : list ustr
}.

(** References to the three Counter objects of the store. *)
Inductive ref := RefP | RefM | RefS.

Definition deref (st : pools) (r : ref) : counter :=
  let '(p_counter, m_counter, s_counter) := st in
  match r with RefP => p_counter | RefM => m_counter | RefS => s_counter end.

Definition read_counter (r : ref) : M world counter :=
  fun w => (inl (deref (store w) r), w).

Definition random_ : M world (draw R) :=
  fun w => let '(d, g) := random R (rnd w) in (inl d, mkWorld (store w) g (out w)).

Definition print (line : ustr) : M world unit :=
  fun w => (inl tt, mkWorld (store w) (rnd w) (out w ++ [line])).

(** [itertools.accumulate(weights)] *)
Fixpoint accumulate (acc : Z) (ws : list Z) : list Z :=
  match ws with
  | [] => []
  | w :: ws' => (acc + w) :: accumulate (acc + w) ws'
  end.

(** [bisect.bisect_right(a, x, lo, hi)], with [x] given by its floor. *)
Fixpoint bisect_loop (fuel : nat) (a : list Z) (x lo hi : Z) : Z :=
  match fuel with
  | O => lo
  | S fuel' =>
      if lo <? hi then
        let mid := (lo + hi) / 2 in
        if x <? nth (Z.to_nat mid) a 0 then bisect_loop fuel' a x lo mid
        else bisect_loop fuel' a x (mid + 1) hi
      else lo
  end.

Definition bisect (a : list Z) (x lo hi : Z) : Z :=
  bisect_loop (Z.to_nat (hi - lo)) a x lo hi.

(** [random.choices(population, weights=weights, k=1)[0]] *)
Definition choices (population : list ustr) (weights : list Z) : M world ustr :=
  let n := Z.of_nat (List.length population) in
  let cum_weights := accumulate 0 weights in
  if negb (Z.of_nat (List.length cum_weights) =? n)
  then throw (ValueError "The number of weights does not match the population")
  else
    match rev cum_weights with
    | [] => throw (IndexError "list index out of range")
    | total :: _ =>
        if total <=? 0
        then throw (ValueError "Total of weights must be greater than zero")
        else
          let hi := n - 1 in
          d <- random_ ;;
          ret (nth (Z.to_nat (bisect cum_weights (floor_scaled R d total) 0 hi))
                   population [])
    end.

(** [weighted_choice(counter)] *)
Definition weighted_choice (r : ref) : M world ustr :=
  c <- read_counter r ;;
  choices (map fst c) (map snd c).

(** The candidate of one iteration: [weighted_choice(p_counter) +
    weighted_choice(m_counter) + weighted_choice(s_counter)]. *)
Definition candidate (refs : ref * ref * ref) : M world ustr :=
  let '(p_counter, m_counter, s_counter) := refs in
  p <- weighted_choice p_counter ;;
  m <- weighted_choice m_counter ;;
  s <- weighted_choice s_counter ;;
  ret (p ++ m ++ s).

Definition in_bounds (min_len max_len : Z) (name : ustr) : bool :=
  (min_len <=? Z.of_nat (List.length name)) && (Z.of_nat (List.length name) <=? max_len).

(** [for _ in range(k)] of [generate_name]. *)
Fixpoint generate_loop (k : nat) (refs : ref * ref * ref) (min_len max_len : Z)
  : M world ustr :=
  match k with
  | O => throw (RuntimeError bounds_msg)
  | S k' =>
      name <- candidate refs ;;
      if in_bounds min_len max_len name then ret name
      else generate_loop k' refs min_len max_len
  end.

(** [generate_name(pools, min_len, max_len)] *)
Definition generate_name (refs : ref * ref * ref) (min_len max_len : Z) : M world ustr :=
  generate_loop 1000 refs min_len max_len.

(** ** Debug dump *)

Fixpoint digits_loop (fuel : nat) (n : Z) : ustr :=
  match fuel with
  | O => []
  | S fuel' =>
      if n <? 10 then [48 + n] else digits_loop fuel' (n / 10) ++ [48 + n mod 10]
  end.

(** [str(z)] for an int. *)
Definition str_of_Z (z : Z) : ustr :=
  if z <? 0 then 45 :: digits_loop (S (Z.to_nat (Z.log2 (- z)))) (- z)
  else digits_loop (S (Z.to_nat (Z.log2 z))) z.

(** [f"{part:<15}"]: left-aligned, padded with spaces to width 15. *)
Definition pad_left (part : ustr) (width : nat) : ustr :=
  part ++ repeat 32 (width - List.length part).

(** Insertion into a list sorted by descending count, after every entry
    with a count at least as large: a stable sort. *)
Fixpoint insert_desc (x : ustr * Z) (l : counter) : counter :=
  match l with
  | [] => [x]
  | y :: l' => if snd x <=? snd y then y :: insert_desc x l' else x :: l
  end.

(** [counter.most_common()] = [sorted(items, key=count, reverse=True)],
    stable, so equal counts keep insertion order. *)
Definition most_common (c : counter) : counter :=
  fold_left (fun acc x => insert_desc x acc) c [].

Fixpoint print_lines (lines : list ustr) : M world unit :=
  match lines with
  | [] => ret tt
  | l :: ls => print l ;;; print_lines ls
  end.

(** [dump_counters(label, counter)] *)
Definition dump_counters (label : ustr) (r : ref) : M world unit :=
  c <- read_counter r ;;
  let total := fold_left Z.add (map snd c) 0 in
  print ([10] ++ u "=== " ++ label ++ u " (" ++ str_of_Z (Z.of_nat (List.length c))
           ++ u " unique | " ++ str_of_Z total ++ u " total) ===") ;;;
  print_lines (map (fun pf => pad_left (fst pf) 15 ++ [32] ++ str_of_Z (snd pf))
                   (most_common c)).

(** ** Generation driver ([main]) *)

Definition goodbye : ustr := [10; 10] ++ u "Exiting. Goodbye!".

(** [for _ in range(count): print(generate_name(pools, min_len, max_len))],
    inside the same [try] as the infinite loop: Ctrl-C arrives after
    [interrupt_after] names, and if that is before the end of the batch
    the handler of [KeyboardInterrupt] prints the goodbye line and [main]
    returns; otherwise the batch ends first. *)
Fixpoint finite_mode (count interrupt_after : nat) (refs : ref * ref * ref)
  (min_len max_len : Z) : M world unit :=
  match count with
  | O => ret tt
  | S count' =>
      match interrupt_after with
      | O => print goodbye
      | S k =>
          name <- generate_name refs min_len max_len ;;
          print name ;;;
          finite_mode count' k refs min_len max_len
      end
  end.

(** [for name in infinite_generator(pools, min_len, max_len): print(name)],
    interrupted by Ctrl-C after [interrupt_after] names; the handler of
    [KeyboardInterrupt] prints the goodbye line. *)
Fixpoint infinite_mode (interrupt_after : nat) (refs : ref * ref * ref)
  (min_len max_len : Z) : M world unit :=
  match interrupt_after with
  | O => print goodbye
  | S k =>
      name <- generate_name refs min_len max_len ;;
      print name ;;;
      infinite_mode k refs min_len max_len
  end.

Definition banner : ustr :=
  u "(Generating forever " ++ [8212] ++ u " press Ctrl" ++ [8209] ++ u "C to stop)" ++ [10].

(** The parsed command line (the chapter path apart). *)
Record args := mkArgs {
  count : Z;
  min_len : Z;
  max_len : Z;
  seed : option Z;
  debug : bool
}.

Inductive outcome :=
| Finished                (* main returns *)
| Exited (msg : string)   (* sys.exit(msg) *)
| Raised (e : exn).       (* an uncaught exception *)

(** [main]: [lines] are the lines of the chapter file, [g0] the state of
    the random module when [main] starts, [interrupt_after] the number of
    names after which Ctrl-C arrives (in finite mode it has no effect when
    the batch is complete by then).  The result is the
    outcome and what was printed on stdout. *)
Definition main (a : args) (lines : list ustr) (interrupt_after : nat) (g0 : rng R)
  : outcome * list ustr :=
  let g := match seed a with Some s => seed_state R s | None => g0 end in
  let names := map strip (filter (fun l => truthy (strip l)) lines) in
  if negb (truthy names) then (Exited "Error: chapter file contains no names.", [])
  else
    match build_weighted_pools names with
    | inr (ValueError msg) => (Exited (String.append "Error: " msg), [])
    | inr e => (Raised e, [])
    | inl ps =>
        let refs := (RefP, RefM, RefS) in
        let session :=
          (if debug a then
             dump_counters (u "Prefix") RefP ;;;
             dump_counters (u "Middle") RefM ;;;
             dump_counters (u "Suffix") RefS
           else ret tt) ;;;
          (if 0 <? count a then
             finite_mode (Z.to_nat (count a)) interrupt_after refs (min_len a) (max_len a)
           else
             print banner ;;;
             infinite_mode interrupt_after refs (min_len a) (max_len a)) in
        match session (mkWorld ps g []) with
        | (inl _, w) => (Finished, out w)
        | (inr e, w) => (Raised e, out w)
        end
    end.

End Engine.

Arguments mkWorld {R} store rnd out.
Arguments store {R} w.
Arguments rnd {R} w.
Arguments out {R} w.
Arguments read_counter {R} r.
Arguments random_ {R}.
Arguments print {R} line.
Arguments choices {R} population weights.
Arguments weighted_choice {R} r.
Arguments candidate {R} refs.
Arguments generate_loop {R} k refs min_len max_len.
Arguments generate_name {R} refs min_len max_len.
Arguments print_lines {R} lines.
Arguments dump_counters {R} label r.
Arguments finite_mode {R} count interrupt_after refs min_len max_len.
Arguments infinite_mode {R} interrupt_after refs min_len max_len.

(** A concrete random source for evaluation: a draw is the integer [k] of
    [random() = k / 2^53], read from an explicit stream, and
    [floor(random() * total)] is computed exactly (it agrees with the float
    product whenever that product is exact, as for [k = 0] or [k = 2^52]
    and small totals).  [random.seed] is replaced by a fixed stand-in
    stream per seed. *)
Definition dyadic_source : random_source := {|
  rng := ((nat -> Z) * nat)%type;
  draw := Z;
  random := fun g => let '(f, i) := g in (f i, (f, S i));
  floor_scaled := fun k total => k * total / 2 ^ 53;
  seed_state := fun s => (fun i => (s * 48271 + Z.of_nat i * 69621) mod 2 ^ 53, O)
|}.

Definition stream_one_short : (nat -> Z) * nat :=
  (fun i => if Nat.eqb i 1 then 0 else 2 ^ 52, O).

(** * Reading and writing chapter files *)

(** What opening a text file for reading finds: no file, its decoded text,
    or some other error raised while reading it (permissions, bytes that
    are not UTF-8). *)
Inductive file_state :=
| Missing
| Text (s : ustr)
| Unreadable.

(** Text mode with universal newlines: ["\r\n"] and a lone ["\r"] are
    read as ["\n"]. *)
Fixpoint translate_newlines (s : ustr) : ustr :=
  match s with
  | [] => []
  | c :: r =>
      if c =? 13 then
        match r with
        | d :: r' => if d =? 10 then 10 :: translate_newlines r' else 10 :: translate_newlines r
        | [] => [10]
        end
      else c :: translate_newlines r
  end.

Fixpoint lines_acc (cur : ustr) (s : ustr) : list ustr :=
  match s with
  | [] => match cur with [] => [] | _ => [cur] end
  | c :: r => if c =? 10 then (cur ++ [10]) :: lines_acc [] r else lines_acc (cur ++ [c]) r
  end.

(** [f.readlines()], or the lines of [for ln in fh]: each line keeps its
    ["\n"]; the last one has none when the text does not end in one. *)
Definition readlines_text (s : ustr) : list ustr := lines_acc [] (translate_newlines s).

(** * cleaner.py *)

Definition ELLIPSIS : Z := 8230.

(** [ch in line] for a one-character [ch] *)
Definition contains (ch : Z) (line : ustr) : bool := existsb (Z.eqb ch) line.

(** The [for i, line in enumerate(lines)] loop of [clean_ebn_debug]. *)
Fixpoint clean_loop (i : nat) (lines : list ustr) : list ustr :=
  match lines with
  | [] => []
  | l :: ls =>
      let line := strip l in
      if Nat.eqb i 0 then clean_loop (S i) ls
      else if negb (truthy line) then clean_loop (S i) ls
      else if contains ELLIPSIS line || contains 46 line then clean_loop (S i) ls
      else line :: clean_loop (S i) ls
  end.

(** The text [f.write(line + '\n')] puts in the output file, line by line. *)
Definition write_lines (lines : list ustr) : ustr :=
  List.concat (map (fun l => l ++ [10]) lines).

(** What [clean_ebn_debug] finds on disk: [ebnDebug.txt], whether
    [os.makedirs("chapters", exist_ok=True)] succeeds, and the message of
    the error raised by [open(output_file, 'w')], if any. *)
Record cleaner_env := mkCleanerEnv {
  input_file : file_state;
  makedirs_ok : bool;
  write_error : option ustr
}.

(** Exceptions that escape [clean_ebn_debug]. *)
Inductive os_exn := MakedirsError | ReadError.

(** [clean_ebn_debug()]: how it ends, what it prints, and the text it
    writes to [chapters/ebnReady.txt] ([None]: the file is not opened). *)
Definition clean_ebn_debug (env : cleaner_env) : (unit + os_exn) * list ustr * option ustr :=
  if negb (makedirs_ok env) then (inr MakedirsError, [], None) else
  match input_file env with
  | Missing => (inl tt, [u "Error: ebnDebug.txt not found!"], None)
  | Unreadable => (inr ReadError, [], None)
  | Text s =>
      let cleaned_lines := clean_loop 0 (readlines_text s) in
      match write_error env with
      | Some e => (inl tt, [u "Error writing to chapters/ebnReady.txt: " ++ e], None)
      | None =>
          (inl tt,
           [u "Successfully cleaned file. Output written to chapters/ebnReady.txt";
            u "Processed " ++ str_of_Z (Z.of_nat (List.length cleaned_lines))
              ++ u " valid lines."],
           Some (write_lines cleaned_lines))
      end
  end.

(** * name_generator_gui.py *)

(** [COUNT = 20] *)
Definition COUNT : nat := 20.

(** The widgets [generate] reads and writes: the chapter list, its
    selection (a single index, as in the default browse mode) and the
    list of generated names. *)
Record gui := mkGui {
  chapter_box : list ustr;
  selection : option nat;
  names_box : list ustr
}.

(** What [str(exc)] shows in the error box: the message of an error of
    the generator, or that of a failed [open] or read. *)
Inductive gui_error :=
| FileError
| GenError (e : exn).

Inductive dialog :=
| ShowWarning (title msg : string)
| ShowError (title : string) (cause : gui_error).

(** [names = [ln.strip() for ln in fh if ln.strip()]] *)
Definition read_names (text : ustr) : list ustr :=
  map strip (filter (fun ln => truthy (strip ln)) (readlines_text text)).

(** [selected_chapter()] *)
Definition selected_chapter (st : gui) : option ustr :=
  match selection st with
  | None => None
  | Some i => Some (nth i (chapter_box st) [])
  end.

Section Gui.

Variable R : random_source.

(** [[nge.generate_name(pools, min_len, max_len) for _ in range(k)]] *)
Fixpoint gen_list (k : nat) (refs : ref * ref * ref) (min_len max_len : Z)
  : M (world R) (list ustr) :=
  match k with
  | O => ret []
  | S k' =>
      nm <- generate_name refs min_len max_len ;;
      rest <- gen_list k' refs min_len max_len ;;
      ret (nm :: rest)
  end.

(** [NameGenApp.generate()]: [files] gives what [chapters/<name>] holds,
    [g] is the state of the random module.  The result is the dialog
    shown, if any, the widgets afterwards and the random state. *)
Definition generate (st : gui) (files : ustr -> file_state) (g : rng R)
  : option dialog * gui * rng R :=
  let no_chapter :=
    (Some (ShowWarning "No chapter selected" "Please select a chapter file first."), st, g) in
  match selected_chapter st with
  | None => no_chapter
  | Some chapter =>
      if negb (truthy chapter) then no_chapter else
      match files chapter with
      | Missing | Unreadable => (Some (ShowError "Error" FileError), st, g)
      | Text text =>
          let names := read_names text in
          match build_weighted_pools names with
          | inr e => (Some (ShowError "Error" (GenError e)), st, g)
          | inl pools =>
              match gen_list COUNT (RefP, RefM, RefS) 2 20 (mkWorld pools g []) with
              | (inl new_names, w) =>
                  (None, mkGui (chapter_box st) (selection st) new_names, rnd w)
              | (inr e, w) => (Some (ShowError "Error" (GenError e)), st, rnd w)
              end
          end
      end
  end.

End Gui.

Arguments gen_list {R} k refs min_len max_len.

(** * Properties of the splitting heuristic *)

Module SplitFacts.

Definition no_vowel (s : ustr) : Prop := forallb (fun ch => negb (is_vowel ch)) s = true.

Definition count_vowels (s : ustr) : nat := List.length (filter is_vowel s).

Lemma vp_app : forall a b i,
  vowel_positions_from i (a ++ b) =
  vowel_positions_from i a ++ vowel_positions_from (i + Z.of_nat (List.length a)) b.
Proof.
  induction a as [|ch a IH]; intros b i; simpl.
  - now rewrite Z.add_0_r.
  - rewrite IH. replace (i + 1 + Z.of_nat (List.length a))
      with (i + Z.pos (Pos.of_succ_nat (List.length a))) by lia.
    destruct (is_vowel ch); reflexivity.
Qed.

Lemma vp_length : forall s i,
  List.length (vowel_positions_from i s) = count_vowels s.
Proof.
  unfold count_vowels; induction s as [|ch s IH]; intros i; simpl; [reflexivity|].
  destruct (is_vowel ch); simpl; now rewrite IH.
Qed.

Lemma vp_bounds : forall s i x,
  In x (vowel_positions_from i s) -> i <= x < i + Z.of_nat (List.length s).
Proof.
  induction s as [|ch s IH]; intros i x Hin; simpl in Hin; [contradiction|].
  simpl List.length.
  destruct (is_vowel ch); [destruct Hin as [<-|Hin]|];
    try (apply IH in Hin); lia.
Qed.

(** The first vowel position: everything before it is a consonant. *)
Lemma vp_head : forall s i x rest,
  vowel_positions_from i s = x :: rest ->
  exists c1 v s2, s = c1 ++ v :: s2 /\ no_vowel c1 /\ is_vowel v = true /\
    x = i + Z.of_nat (List.length c1) /\
    rest = vowel_positions_from (x + 1) s2.
Proof.
  induction s as [|ch s IH]; intros i x rest H; simpl in H; [discriminate|].
  destruct (is_vowel ch) eqn:Hv.
  - injection H as <- <-. exists [], ch, s. simpl. repeat split; auto; lia.
  - destruct (IH _ _ _ H) as (c1 & v & s2 & -> & Hc1 & Hvv & -> & ->).
    exists (ch :: c1), v, s2. unfold no_vowel in *; simpl.
    rewrite Hv, Hc1. repeat split; auto; try lia; f_equal; lia.
Qed.

(** The last vowel position: everything after it is a consonant. *)
Lemma vp_last : forall s i,
  vowel_positions_from i s <> [] ->
  exists s1 v c2, s = s1 ++ v :: c2 /\ no_vowel c2 /\ is_vowel v = true /\
    last (vowel_positions_from i s) 0 = i + Z.of_nat (List.length s1).
Proof.
  intros s i. induction s as [|ch s IH] using rev_ind; intros Hne.
  - contradiction.
  - rewrite vp_app in *. simpl in *. destruct (is_vowel ch) eqn:Hv.
    + exists s, ch, []. repeat split; auto. now rewrite last_last.
    + rewrite app_nil_r in *. destruct (IH Hne) as (s1 & v & c2 & -> & Hc2 & Hvv & Hl).
      exists s1, v, (c2 ++ [ch]). rewrite <- app_assoc. repeat split; auto.
      unfold no_vowel in *. rewrite forallb_app, Hc2. simpl. now rewrite Hv.
Qed.

Lemma last_in : forall (l : list Z) x d, In (last (x :: l) d) (x :: l).
Proof.
  induction l as [|y l IH]; intros x d; [simpl; auto|].
  change (last (x :: y :: l) d) with (last (y :: l) d). right. apply IH.
Qed.

Lemma vp_sorted : forall s i x rest y,
  vowel_positions_from i s = x :: rest -> In y rest -> x < y.
Proof.
  intros s i x rest y H Hy.
  destruct (vp_head _ _ _ _ H) as (c1 & v & s2 & _ & _ & _ & _ & ->).
  apply vp_bounds in Hy. lia.
Qed.

(** The fallback loop ends with both lengths at least 1 and either no
    overlap or both lengths 1; it never runs out of fuel. *)
Lemma shrink_exits : forall fuel n p q,
  1 <= p -> 1 <= q -> p + q <= Z.of_nat fuel + 1 ->
  let '(p', q') := shrink fuel n p q in
  1 <= p' <= p /\ 1 <= q' <= q /\ (p' + q' < n \/ (p' = 1 /\ q' = 1)).
Proof.
  induction fuel as [|fuel IH]; intros n p q Hp Hq Hf; [simpl in Hf; lia|].
  simpl shrink.
  destruct (n <=? p + q) eqn:Hn; [|lia].
  destruct (1 <? q) eqn:Hq1.
  - specialize (IH n p (q - 1)).
    destruct (shrink fuel n p (q - 1)) as [p' q'].
    assert (H := IH ltac:(lia) ltac:(lia) ltac:(lia)). lia.
  - destruct (1 <? p) eqn:Hp1.
    + specialize (IH n (p - 1) q).
      destruct (shrink fuel n (p - 1) q) as [p' q'].
      assert (H := IH ltac:(lia) ltac:(lia) ltac:(lia)). lia.
    + lia.
Qed.

Lemma prefix_app {A} : forall (l1 l2 : list A), firstn (List.length l1) (l1 ++ l2) = l1.
Proof. induction l1 as [|a l1 IH]; intros l2; simpl; [reflexivity|now rewrite IH]. Qed.

Lemma suffix_app {A} : forall (l1 l2 : list A), skipn (List.length l1) (l1 ++ l2) = l2.
Proof. induction l1 as [|a l1 IH]; intros l2; simpl; [reflexivity|apply IH]. Qed.

(** [t[i:j]] for indices in range is [firstn (j - i) (skipn i t)]. *)
Lemma py_slice_nat {A} : forall (t : list A) (i j : nat),
  (i <= j <= List.length t)%nat ->
  py_slice t (Z.of_nat i) (Z.of_nat j) = firstn (j - i) (skipn i t).
Proof.
  intros t i j H. unfold py_slice, py_norm.
  replace (Z.of_nat i <? 0) with false by (symmetry; apply Z.ltb_ge; lia).
  replace (Z.of_nat j <? 0) with false by (symmetry; apply Z.ltb_ge; lia).
  rewrite !Z.min_l by lia.
  f_equal; try f_equal; lia.
Qed.

(** [t[p:-q]] and [t[-q:]] for [1 <= q <= len t]. *)
Lemma py_slice_neg_end {A} : forall (t : list A) (p q : nat),
  (1 <= q)%nat -> (p + q <= List.length t)%nat ->
  py_slice t (Z.of_nat p) (- Z.of_nat q) = firstn (List.length t - q - p) (skipn p t).
Proof.
  intros t p q Hq H. unfold py_slice, py_norm.
  replace (Z.of_nat p <? 0) with false by (symmetry; apply Z.ltb_ge; lia).
  replace (- Z.of_nat q <? 0) with true by (symmetry; apply Z.ltb_lt; lia).
  rewrite Z.min_l by lia. rewrite Z.max_r by lia.
  f_equal; try f_equal; lia.
Qed.

Lemma py_slice_neg_start {A} : forall (t : list A) (q : nat),
  (1 <= q <= List.length t)%nat ->
  py_slice t (- Z.of_nat q) (Z.of_nat (List.length t)) = skipn (List.length t - q) t.
Proof.
  intros t q H. unfold py_slice, py_norm.
  replace (- Z.of_nat q <? 0) with true by (symmetry; apply Z.ltb_lt; lia).
  replace (Z.of_nat (List.length t) <? 0) with false by (symmetry; apply Z.ltb_ge; lia).
  rewrite Z.min_id. rewrite Z.max_r by lia.
  rewrite firstn_all2; [f_equal; lia|]. rewrite length_skipn. lia.
Qed.

(** Two or more vowels: the prefix runs up to the first vowel, the suffix
    starts at the last vowel. *)
Lemma split_two_vowels : forall s,
  (2 <= count_vowels (strip s))%nat ->
  exists c1 v1 m v2 c2,
    strip s = c1 ++ v1 :: m ++ v2 :: c2 /\ no_vowel c1 /\ no_vowel c2 /\
    is_vowel v1 = true /\ is_vowel v2 = true /\
    split_name s = (c1 ++ [v1], m, v2 :: c2).
Proof.
  intros s. unfold split_name, vowel_positions. generalize (strip s) as t. intros t Hc.
  rewrite <- (vp_length t 0) in Hc.
  destruct (vowel_positions_from 0 t) as [|x [|y rest]] eqn:Hvp; simpl in Hc; try lia.
  destruct (vp_head _ _ _ _ Hvp) as (c1 & v1 & s2 & Ht1 & Hc1 & Hv1 & Hx & _).
  assert (Hne : vowel_positions_from 0 t <> []) by (rewrite Hvp; discriminate).
  destruct (vp_last _ _ Hne) as (s1 & v2 & c2 & Ht2 & Hc2 & Hv2 & Hl).
  rewrite Hvp in Hl.
  assert (Hlt : x < last (x :: y :: rest) 0).
  { apply (vp_sorted t 0 x (y :: rest)); [exact Hvp|].
    change (last (x :: y :: rest) 0) with (last (y :: rest) 0). apply last_in. }
  rewrite Hl in Hlt. simpl in Hx.
  set (m := firstn (List.length s1 - List.length c1 - 1) s2).
  assert (Hs1 : s1 = c1 ++ v1 :: m).
  { assert (E : firstn (List.length s1) t = s1) by (rewrite Ht2; apply prefix_app).
    rewrite <- E, Ht1.
    replace (List.length s1) with (List.length c1 + S (List.length s1 - List.length c1 - 1))%nat
      by lia.
    rewrite firstn_app_2. reflexivity. }
  exists c1, v1, m, v2, c2.
  assert (Ht : t = c1 ++ v1 :: m ++ v2 :: c2)
    by (rewrite Ht2, Hs1, <- app_assoc; reflexivity).
  repeat split; auto.
  assert (Hlen : List.length t = (List.length c1 + 1 + List.length m + 1 + List.length c2)%nat)
    by (rewrite Ht, !length_app; simpl; rewrite !length_app; simpl; lia).
  assert (Hls1 : List.length s1 = (List.length c1 + 1 + List.length m)%nat)
    by (rewrite Hs1, length_app; simpl; lia).
  replace (Z.of_nat (List.length t) =? 0) with false by (symmetry; apply Z.eqb_neq; lia).
  replace (2 <=? Z.of_nat (List.length (x :: y :: rest))) with true
    by (symmetry; apply Z.leb_le; simpl; lia).
  simpl nth. rewrite Hl. simpl (0 + _) in *. subst x.
  replace (Z.of_nat (List.length c1) + 1) with (Z.of_nat (List.length c1 + 1)) by lia.
  change 0 with (Z.of_nat 0).
  rewrite (py_slice_nat t 0 (List.length c1 + 1)) by lia.
  rewrite (py_slice_nat t (List.length c1 + 1) (List.length s1)) by lia.
  rewrite (py_slice_nat t (List.length s1) (List.length t)) by lia.
  rewrite Hls1, Ht.
  replace (c1 ++ v1 :: m ++ v2 :: c2) with ((c1 ++ [v1]) ++ m ++ v2 :: c2)
    by (rewrite <- app_assoc; reflexivity).
  assert (Ec : List.length (c1 ++ [v1]) = (List.length c1 + 1)%nat)
    by (rewrite length_app; reflexivity).
  rewrite <- Ec.
  replace (List.length (c1 ++ [v1]) - 0)%nat with (List.length (c1 ++ [v1])) by lia.
  rewrite skipn_O, prefix_app.
  replace (List.length (c1 ++ [v1]) + List.length m - List.length (c1 ++ [v1]))%nat
    with (List.length m) by lia.
  rewrite suffix_app, prefix_app.
  replace (List.length (c1 ++ [v1]) + List.length m)%nat
    with (List.length m + List.length (c1 ++ [v1]))%nat by lia.
  rewrite <- skipn_skipn, suffix_app, suffix_app.
  rewrite firstn_all2; [reflexivity|].
  rewrite !length_app; simpl; lia.
Qed.

(** Exactly one vowel and at least three characters: the first and the
    last character are the prefix and the suffix. *)
Lemma split_one_vowel : forall s,
  count_vowels (strip s) = 1%nat -> (3 <= List.length (strip s))%nat ->
  exists a m b, strip s = a :: m ++ [b] /\ split_name s = ([a], m, [b]).
Proof.
  intros s. unfold split_name, vowel_positions. generalize (strip s) as t. intros t Hc Hn.
  rewrite <- (vp_length t 0) in Hc.
  destruct (vowel_positions_from 0 t) as [|x [|y rest]] eqn:Hvp; simpl in Hc; try lia.
  destruct t as [|a r]; simpl in Hn; [lia|].
  destruct (exists_last (l := r)) as (m & b & Hr); [intros ->; simpl in Hn; lia|].
  exists a, m, b. subst r. split; [reflexivity|].
  assert (Hn' : (3 <= List.length (a :: m ++ [b]))%nat) by (simpl; lia).
  replace (Z.of_nat (List.length (a :: m ++ [b])) =? 0) with false
    by (symmetry; apply Z.eqb_neq; lia).
  change (2 <=? Z.of_nat (List.length [x])) with false.
  replace ((Z.of_nat (List.length [x]) =? 1) && (3 <=? Z.of_nat (List.length (a :: m ++ [b]))))
    with true by (symmetry; apply andb_true_iff; split; [reflexivity|apply Z.leb_le; lia]).
  change (py_slice (a :: m ++ [b]) 1 (-1))
    with (py_slice (a :: m ++ [b]) (Z.of_nat 1) (- Z.of_nat 1)).
  rewrite py_slice_neg_end by lia.
  unfold py_getitem. simpl (Z.to_nat (if 0 <? 0 then _ else _)).
  replace (Z.to_nat (if -1 <? 0 then -1 + Z.of_nat (List.length (a :: m ++ [b])) else -1))
    with (List.length (a :: m)).
  2:{ replace (-1 <? 0) with true by reflexivity.
      change (List.length (a :: m ++ [b])) with (S (List.length (m ++ [b]))).
      rewrite length_app. change (List.length (a :: m)) with (S (List.length m)).
      change (List.length [b]) with 1%nat. lia. }
  change (a :: m ++ [b]) with ((a :: m) ++ [b]). rewrite nth_middle.
  simpl. rewrite length_app. simpl.
  replace (List.length m + 1 - 0 - 1)%nat with (List.length m) by lia.
  rewrite prefix_app. reflexivity.
Qed.

Lemma py_slice_prefix {A} : forall (t : list A) j,
  0 <= j -> py_slice t 0 j = firstn (Z.to_nat j) t.
Proof.
  intros t j Hj. unfold py_slice, py_norm.
  replace (0 <? 0) with false by reflexivity.
  replace (j <? 0) with false by (symmetry; apply Z.ltb_ge; lia).
  cbv iota. rewrite (Z.min_l 0) by lia. simpl skipn. rewrite Z.sub_0_r.
  destruct (Z.le_ge_cases j (Z.of_nat (List.length t))) as [H|H].
  - rewrite Z.min_l by lia. reflexivity.
  - rewrite Z.min_r by lia. rewrite Nat2Z.id, firstn_all, firstn_all2; [reflexivity|lia].
Qed.

(** No vowel, or one vowel in a name of one or two characters: the
    length-ratio split, with lengths at least 1 taken from [round(0.3 n)]
    and [round(0.2 n)] and shortened until they do not overlap or are both 1. *)
Lemma split_fallback : forall s,
  strip s <> [] ->
  (count_vowels (strip s) = 0%nat \/
   (count_vowels (strip s) = 1%nat /\ (List.length (strip s) <= 2)%nat)) ->
  exists p q : nat,
    let n := List.length (strip s) in
    (1 <= p)%nat /\ (1 <= q)%nat /\ ((p + q < n)%nat \/ (p = 1 /\ q = 1)%nat) /\
    Z.of_nat p <= Z.max 1 (py_round (Z.of_nat n * 3) 10) /\
    Z.of_nat q <= Z.max 1 (py_round (Z.of_nat n * 2) 10) /\
    split_name s =
      (firstn p (strip s),
       (if (p + q <? n)%nat then firstn (n - q - p) (skipn p (strip s)) else []),
       skipn (n - q) (strip s)).
Proof.
  intros s. unfold split_name, vowel_positions. generalize (strip s) as t. intros t Hne Hc.
  rewrite <- !(vp_length t 0) in Hc.
  assert (Hn : (1 <= List.length t)%nat) by (destruct t; [congruence|simpl; lia]).
  replace (Z.of_nat (List.length t) =? 0) with false by (symmetry; apply Z.eqb_neq; lia).
  replace (2 <=? Z.of_nat (List.length (vowel_positions_from 0 t))) with false
    by (symmetry; apply Z.leb_gt; lia).
  replace ((Z.of_nat (List.length (vowel_positions_from 0 t)) =? 1) &&
           (3 <=? Z.of_nat (List.length t))) with false.
  2:{ symmetry. apply andb_false_iff.
      destruct Hc as [Hc|[_ Hc]]; [left; apply Z.eqb_neq; lia|right; apply Z.leb_gt; lia]. }
  set (p0 := Z.max 1 (py_round (Z.of_nat (List.length t) * 3) 10)).
  set (q0 := Z.max 1 (py_round (Z.of_nat (List.length t) * 2) 10)).
  assert (Hsh := shrink_exits (Z.to_nat (p0 + q0)) (Z.of_nat (List.length t)) p0 q0
                   ltac:(lia) ltac:(lia) ltac:(lia)).
  destruct (shrink (Z.to_nat (p0 + q0)) (Z.of_nat (List.length t)) p0 q0) as [p' q'].
  exists (Z.to_nat p'), (Z.to_nat q').
  assert (Hq : (Z.to_nat q' <= List.length t)%nat) by lia.
  repeat split; try lia.
  rewrite py_slice_prefix by lia.
  replace (- q') with (- Z.of_nat (Z.to_nat q')) by lia.
  replace (Z.of_nat (List.length t)) with (Z.of_nat (List.length t)) at 2 by reflexivity.
  rewrite py_slice_neg_start by lia.
  destruct (p' + q' <? Z.of_nat (List.length t)) eqn:Hlt.
  - apply Z.ltb_lt in Hlt.
    replace (Z.to_nat p' + Z.to_nat q' <? List.length t)%nat with true
      by (symmetry; apply Nat.ltb_lt; lia).
    replace p' with (Z.of_nat (Z.to_nat p')) at 2 by lia.
    rewrite py_slice_neg_end by lia. reflexivity.
  - apply Z.ltb_ge in Hlt.
    replace (Z.to_nat p' + Z.to_nat q' <? List.length t)%nat with false
      by (symmetry; apply Nat.ltb_ge; lia).
    reflexivity.
Qed.

Lemma slice3 {A} : forall (t : list A) a b, (a <= b)%nat ->
  firstn a t ++ firstn (b - a) (skipn a t) ++ skipn b t = t.
Proof.
  intros t a b Hab.
  replace (skipn b t) with (skipn (b - a) (skipn a t))
    by (rewrite skipn_skipn; f_equal; lia).
  rewrite firstn_skipn. apply firstn_skipn.
Qed.

Lemma lstrip_length : forall s, (List.length (lstrip s) <= List.length s)%nat.
Proof.
  induction s as [|c s IH]; simpl; [lia|]. destruct (is_space c); simpl; lia.
Qed.

Lemma strip_length : forall s, (List.length (strip s) <= List.length s)%nat.
Proof.
  intros s. unfold strip, rstrip. rewrite length_rev.
  pose proof (lstrip_length (rev (lstrip s))) as H1. rewrite length_rev in H1.
  pose proof (lstrip_length s). lia.
Qed.

Lemma split_empty : forall s, strip s = [] -> split_name s = ([], [], []).
Proof. intros s. unfold split_name. generalize (strip s). intros t ->. reflexivity. Qed.

Lemma count_vowels_le : forall t, (count_vowels t <= List.length t)%nat.
Proof. intros t. unfold count_vowels. apply filter_length_le. Qed.

(** The three parts put back together give the trimmed name, unless it
    is a single character, which is both the prefix and the suffix. *)
Lemma split_concat : forall s,
  let '(prefix, middle, suffix) := split_name s in
  (List.length (strip s) <> 1%nat -> prefix ++ middle ++ suffix = strip s) /\
  (forall c, strip s = [c] -> (prefix, middle, suffix) = ([c], [], [c])).
Proof.
  intros s.
  destruct (strip s) as [|c0 t0] eqn:Ht.
  { rewrite (split_empty s Ht). split; [reflexivity|discriminate]. }
  assert (Hne : strip s <> []) by (rewrite Ht; discriminate).
  rewrite <- Ht.
  destruct (le_lt_dec 2 (count_vowels (strip s))) as [H2|H2].
  { destruct (split_two_vowels s H2) as (c1 & v1 & m & v2 & c2 & Hs & _ & _ & _ & _ & ->).
    split.
    - intros _. rewrite Hs, <- app_assoc. reflexivity.
    - intros c Hc. rewrite Hs in Hc. exfalso.
      apply (f_equal (@List.length Z)) in Hc.
      rewrite length_app in Hc. simpl in Hc. rewrite length_app in Hc. simpl in Hc. lia. }
  destruct (Nat.eq_dec (count_vowels (strip s)) 1) as [H1|H1];
    [destruct (le_lt_dec 3 (List.length (strip s))) as [H3|H3]|].
  { destruct (split_one_vowel s H1 H3) as (a & m & b & Hs & ->).
    split.
    - intros _. rewrite Hs. reflexivity.
    - intros c Hc. rewrite Hc in H3. simpl in H3. lia. }
  all: destruct (split_fallback s Hne ltac:(lia)) as (p & q & Hp & Hq & Hpq & _ & _ & ->).
  all: split; [intros Hn1|intros c Hc].
  all: try (destruct (p + q <? List.length (strip s))%nat eqn:Hlt;
            [apply Nat.ltb_lt in Hlt; apply slice3; lia|apply Nat.ltb_ge in Hlt]).
  all: try (destruct Hpq as [Hpq|[-> ->]]; [lia|];
            assert (Hn0 : List.length (strip s) <> 0%nat)
              by (intros H0; apply length_zero_iff_nil in H0; congruence);
            replace (List.length (strip s) - 1)%nat with 1%nat by lia;
            rewrite app_nil_l; apply firstn_skipn).
  all: rewrite Hc; simpl List.length;
       destruct Hpq as [Hpq|[-> ->]]; [rewrite Hc in Hpq; simpl in Hpq; lia|reflexivity].
Qed.

(** A name of at most two characters (after trimming) has an empty middle. *)
Lemma split_short_middle : forall s,
  (List.length (strip s) <= 2)%nat -> snd (fst (split_name s)) = [].
Proof.
  intros s Hn.
  destruct (strip s) as [|c0 t0] eqn:Ht.
  { rewrite (split_empty s Ht). reflexivity. }
  assert (Hne : strip s <> []) by (rewrite Ht; discriminate).
  rewrite <- Ht in Hn.
  destruct (le_lt_dec 2 (count_vowels (strip s))) as [H2|H2].
  { destruct (split_two_vowels s H2) as (c1 & v1 & m & v2 & c2 & Hs & _ & _ & _ & _ & ->).
    simpl. destruct m; [reflexivity|].
    rewrite Hs, length_app in Hn. simpl in Hn. rewrite length_app in Hn. simpl in Hn. lia. }
  pose proof (count_vowels_le (strip s)).
  destruct (split_fallback s Hne ltac:(lia)) as (p & q & Hp & Hq & Hpq & _ & _ & ->).
  simpl. destruct (p + q <? List.length (strip s))%nat eqn:Hlt; [|reflexivity].
  apply Nat.ltb_lt in Hlt. lia.
Qed.

(** A non-blank name has a non-empty prefix and a non-empty suffix. *)
Lemma split_ends_nonempty : forall s,
  strip s <> [] -> fst (fst (split_name s)) <> [] /\ snd (split_name s) <> [].
Proof.
  intros s Hne.
  destruct (le_lt_dec 2 (count_vowels (strip s))) as [H2|H2].
  { destruct (split_two_vowels s H2) as (c1 & v1 & m & v2 & c2 & Hs & _ & _ & _ & _ & ->).
    simpl. split; [destruct c1|]; discriminate. }
  destruct (Nat.eq_dec (count_vowels (strip s)) 1) as [H1|H1];
    [destruct (le_lt_dec 3 (List.length (strip s))) as [H3|H3]|].
  { destruct (split_one_vowel s H1 H3) as (a & m & b & Hs & ->). simpl. split; discriminate. }
  all: destruct (split_fallback s Hne ltac:(lia)) as (p & q & Hp & Hq & Hpq & _ & _ & ->).
  all: assert (Hn0 : List.length (strip s) <> 0%nat)
         by (intros H0; apply length_zero_iff_nil in H0; congruence).
  all: cbn [fst snd]; split; intros Hx; apply (f_equal (@List.length Z)) in Hx;
       rewrite ?length_firstn, ?length_skipn in Hx; cbn [List.length] in Hx; lia.
Qed.

End SplitFacts.

(** * Properties of the pool builder *)

Module PoolFacts.

(** [counter[k]]: a missing key reads as 0. *)
Fixpoint counter_get (k : ustr) (c : counter) : Z :=
  match c with
  | [] => 0
  | (k', v) :: c' => if list_eq_dec Z.eq_dec k k' then v else counter_get k c'
  end.

Definition seg_eqb (a b : ustr) : bool := if list_eq_dec Z.eq_dec a b then true else false.

Definition sel_prefix (x : ustr * ustr * ustr) : ustr := fst (fst x).
Definition sel_middle (x : ustr * ustr * ustr) : ustr := snd (fst x).
Definition sel_suffix (x : ustr * ustr * ustr) : ustr := snd x.

(** What one name does to one pool. *)
Definition pool_step (sel : ustr * ustr * ustr -> ustr) (c : counter) (raw : ustr) : counter :=
  let seg := sel (split_name raw) in
  if truthy seg then counter_incr seg c else c.

Lemma build_loop_split : forall names a b c,
  fold_left add_name names (a, b, c) =
  (fold_left (pool_step sel_prefix) names a,
   fold_left (pool_step sel_middle) names b,
   fold_left (pool_step sel_suffix) names c).
Proof.
  induction names as [|raw names IH]; intros a b c; [reflexivity|].
  simpl. unfold add_name, pool_step, sel_prefix, sel_middle, sel_suffix.
  destruct (split_name raw) as [[p m] s]. apply IH.
Qed.

Lemma counter_get_incr : forall k k' c,
  counter_get k (counter_incr k' c) =
  counter_get k c + (if list_eq_dec Z.eq_dec k k' then 1 else 0).
Proof.
  intros k k'. induction c as [|[k'' v] c IH]; simpl.
  - destruct (list_eq_dec Z.eq_dec k k'); lia.
  - destruct (list_eq_dec Z.eq_dec k' k'') as [->|Hne]; simpl.
    + destruct (list_eq_dec Z.eq_dec k k''); lia.
    + rewrite IH. destruct (list_eq_dec Z.eq_dec k k'') as [E|E];
        destruct (list_eq_dec Z.eq_dec k k') as [E'|E']; subst; try congruence; lia.
Qed.

Definition well_formed (c : counter) : Prop :=
  forall k v, In (k, v) c -> k <> [] /\ 1 <= v.

Lemma counter_incr_wf : forall k c, k <> [] -> well_formed c -> well_formed (counter_incr k c).
Proof.
  intros k c Hk. induction c as [|[k' v] c IH]; intros Hwf k0 v0 Hin; simpl in Hin.
  - destruct Hin as [Hin|[]]. injection Hin as <- <-. split; [exact Hk|lia].
  - destruct (list_eq_dec Z.eq_dec k k').
    + destruct Hin as [Hin|Hin].
      * injection Hin as <- <-.
        destruct (Hwf k' v (or_introl eq_refl)) as [Hk' Hv]. split; [exact Hk'|lia].
      * apply Hwf. right. exact Hin.
    + destruct Hin as [Hin|Hin].
      * apply Hwf. left. exact Hin.
      * apply IH; [|exact Hin]. intros k1 v1 H1. apply Hwf. right. exact H1.
Qed.

Lemma pool_wf : forall sel names c,
  well_formed c -> well_formed (fold_left (pool_step sel) names c).
Proof.
  intros sel. induction names as [|raw names IH]; intros c Hc; [exact Hc|].
  simpl. apply IH. unfold pool_step.
  destruct (sel (split_name raw)) as [|z seg] eqn:E; [exact Hc|].
  apply counter_incr_wf; [discriminate|exact Hc].
Qed.

Lemma pool_count : forall sel k names c, k <> [] ->
  counter_get k (fold_left (pool_step sel) names c) =
  counter_get k c +
  Z.of_nat (List.length (filter (fun raw => seg_eqb (sel (split_name raw)) k) names)).
Proof.
  intros sel k. induction names as [|raw names IH]; intros c Hk; simpl; [lia|].
  rewrite IH by exact Hk. unfold pool_step, seg_eqb.
  destruct (sel (split_name raw)) as [|z seg] eqn:E.
  - destruct (list_eq_dec Z.eq_dec [] k); [congruence|]. reflexivity.
  - simpl truthy. cbv iota. rewrite counter_get_incr.
    destruct (list_eq_dec Z.eq_dec k (z :: seg)), (list_eq_dec Z.eq_dec (z :: seg) k);
      try congruence; simpl List.length; lia.
Qed.

Lemma counter_incr_nonempty : forall k c, counter_incr k c <> [].
Proof. intros k [|[k' v] c]; simpl; [discriminate|]. destruct (list_eq_dec Z.eq_dec k k'); discriminate. Qed.

Lemma pool_nonempty : forall sel names c,
  c <> [] -> fold_left (pool_step sel) names c <> [].
Proof.
  intros sel. induction names as [|raw names IH]; intros c Hc; [exact Hc|].
  simpl. apply IH. unfold pool_step. destruct (truthy _); [apply counter_incr_nonempty|exact Hc].
Qed.

Lemma pool_nonempty_of : forall sel names,
  Exists (fun raw => sel (split_name raw) <> []) names ->
  fold_left (pool_step sel) names [] <> [].
Proof.
  intros sel names H. induction H as [raw names Hraw|raw names _ IH]; simpl.
  - apply pool_nonempty. unfold pool_step.
    destruct (sel (split_name raw)); [congruence|apply counter_incr_nonempty].
  - unfold pool_step at 2. destruct (sel (split_name raw)) eqn:E; [exact IH|].
    apply pool_nonempty, counter_incr_nonempty.
Qed.

Lemma pool_empty_of : forall sel names,
  Forall (fun raw => sel (split_name raw) = []) names ->
  fold_left (pool_step sel) names [] = [].
Proof.
  intros sel names H. induction H as [|raw names Hraw _ IH]; [reflexivity|].
  simpl. unfold pool_step at 2. rewrite Hraw. exact IH.
Qed.

End PoolFacts.

(** * Properties of generation *)

Module GenFacts.

Section WithSource.

Variable R : random_source.

(** A computation that leaves the Counter objects as they are. *)
Definition keeps_store {A} (m : M (world R) A) : Prop :=
  forall w, store (snd (m w)) = store w.

(** A computation that prints nothing. *)
Definition keeps_out {A} (m : M (world R) A) : Prop :=
  forall w, out (snd (m w)) = out w.

Lemma ret_keeps_store {A} (a : A) : keeps_store (ret a).
Proof. intros w. reflexivity. Qed.

Lemma throw_keeps_store {A} e : keeps_store (A := A) (throw e).
Proof. intros w. reflexivity. Qed.

Lemma bind_keeps_store {A B} (m : M (world R) A) (k : A -> M (world R) B) :
  keeps_store m -> (forall a, keeps_store (k a)) -> keeps_store (bind m k).
Proof.
  intros Hm Hk w. unfold bind. specialize (Hm w).
  destruct (m w) as [[a|e] w']; simpl in *; [rewrite Hk|]; exact Hm.
Qed.

Lemma read_counter_keeps_store r : keeps_store (read_counter r).
Proof. intros w. reflexivity. Qed.

Lemma random_keeps_store : keeps_store (@random_ R).
Proof. intros w. unfold random_. destruct (random R (rnd w)). reflexivity. Qed.

Lemma print_keeps_store line : keeps_store (@print R line).
Proof. intros w. reflexivity. Qed.

Lemma ret_keeps_out {A} (a : A) : keeps_out (ret a).
Proof. intros w. reflexivity. Qed.

Lemma throw_keeps_out {A} e : keeps_out (A := A) (throw e).
Proof. intros w. reflexivity. Qed.

Lemma bind_keeps_out {A B} (m : M (world R) A) (k : A -> M (world R) B) :
  keeps_out m -> (forall a, keeps_out (k a)) -> keeps_out (bind m k).
Proof.
  intros Hm Hk w. unfold bind. specialize (Hm w).
  destruct (m w) as [[a|e] w']; simpl in *; [rewrite Hk|]; exact Hm.
Qed.

Lemma read_counter_keeps_out r : keeps_out (read_counter r).
Proof. intros w. reflexivity. Qed.

Lemma random_keeps_out : keeps_out (@random_ R).
Proof. intros w. unfold random_. destruct (random R (rnd w)). reflexivity. Qed.

Create HintDb readonly.
#[local] Hint Resolve ret_keeps_store throw_keeps_store read_counter_keeps_store
  random_keeps_store print_keeps_store ret_keeps_out throw_keeps_out
  read_counter_keeps_out random_keeps_out : readonly.
#[local] Hint Extern 2 (keeps_store (bind _ _)) =>
  apply bind_keeps_store; [|intro] : readonly.
#[local] Hint Extern 2 (keeps_out (bind _ _)) =>
  apply bind_keeps_out; [|intro] : readonly.

Ltac readonly_step :=
  repeat match goal with
  | |- keeps_store (match ?x with _ => _ end) => destruct x
  | |- keeps_out (match ?x with _ => _ end) => destruct x
  | |- keeps_store (bind _ _) => apply bind_keeps_store; [|intro]
  | |- keeps_out (bind _ _) => apply bind_keeps_out; [|intro]
  end; auto with readonly.

Lemma choices_keeps_store pop ws : keeps_store (@choices R pop ws).
Proof. unfold choices. readonly_step. Qed.

Lemma choices_keeps_out pop ws : keeps_out (@choices R pop ws).
Proof. unfold choices. readonly_step. Qed.

Lemma weighted_choice_keeps_store r : keeps_store (@weighted_choice R r).
Proof. unfold weighted_choice. readonly_step; apply choices_keeps_store. Qed.

Lemma weighted_choice_keeps_out r : keeps_out (@weighted_choice R r).
Proof. unfold weighted_choice. readonly_step; apply choices_keeps_out. Qed.

Lemma candidate_keeps_store refs : keeps_store (@candidate R refs).
Proof.
  destruct refs as [[a b] c]. unfold candidate.
  readonly_step; apply weighted_choice_keeps_store.
Qed.

Lemma candidate_keeps_out refs : keeps_out (@candidate R refs).
Proof.
  destruct refs as [[a b] c]. unfold candidate.
  readonly_step; apply weighted_choice_keeps_out.
Qed.

Lemma generate_loop_keeps_store k refs mn mx : keeps_store (@generate_loop R k refs mn mx).
Proof.
  induction k as [|k IH]; simpl; readonly_step; apply candidate_keeps_store.
Qed.

Lemma generate_name_keeps_store refs mn mx : keeps_store (@generate_name R refs mn mx).
Proof. apply generate_loop_keeps_store. Qed.

Lemma print_lines_keeps_store lines : keeps_store (@print_lines R lines).
Proof. induction lines as [|l ls IH]; simpl; readonly_step. Qed.

Lemma dump_counters_keeps_store label r : keeps_store (@dump_counters R label r).
Proof. unfold dump_counters. readonly_step. apply print_lines_keeps_store. Qed.

(** The Counter objects referenced by [refs] are non-empty with positive
    counts: the PoolSet invariant that [build_weighted_pools] establishes. *)
Definition pool_ok (c : counter) : Prop := c <> [] /\ PoolFacts.well_formed c.

Definition pools_ok (st : pools) (refs : ref * ref * ref) : Prop :=
  let '(a, b, c) := refs in
  pool_ok (deref st a) /\ pool_ok (deref st b) /\ pool_ok (deref st c).

(** The world after [j] candidates have been drawn. *)
Fixpoint attempts_from (refs : ref * ref * ref) (j : nat) (w : world R) : world R :=
  match j with
  | O => w
  | S j' => attempts_from refs j' (snd (candidate refs w))
  end.

(** The candidate drawn at the [j]-th iteration (from 0). *)
Definition attempt_name (refs : ref * ref * ref) (j : nat) (w : world R) : ustr + exn :=
  fst (candidate refs (attempts_from refs j w)).

Lemma length_accumulate : forall ws a, List.length (accumulate a ws) = List.length ws.
Proof. induction ws as [|v ws IH]; intros a; simpl; [reflexivity|now rewrite IH]. Qed.

Lemma accumulate_gt : forall ws a x,
  Forall (fun v => 1 <= v) ws -> In x (accumulate a ws) -> a < x.
Proof.
  induction ws as [|v ws IH]; intros a x Hws Hin; simpl in Hin; [contradiction|].
  inversion Hws as [|? ? Hv Hws']; subst.
  destruct Hin as [<-|Hin]; [lia|]. apply IH in Hin; [lia|exact Hws'].
Qed.

Lemma choices_ok : forall (c : counter) (w : world R),
  pool_ok c -> exists nm, fst (choices (map fst c) (map snd c) w) = inl nm.
Proof.
  intros c w [Hne Hwf]. unfold choices.
  rewrite length_accumulate, !length_map, Z.eqb_refl. simpl negb. cbv iota.
  destruct (rev (accumulate 0 (map snd c))) as [|total rest] eqn:Erev.
  { apply (f_equal (@List.length Z)) in Erev.
    rewrite length_rev, length_accumulate, length_map in Erev.
    destruct c; [congruence|discriminate]. }
  assert (Htot : 0 < total).
  { apply (accumulate_gt (map snd c) 0 total).
    - apply Forall_forall. intros v Hv. apply in_map_iff in Hv.
      destruct Hv as [[k v'] [<- Hin]]. apply (Hwf k v' Hin).
    - apply in_rev. rewrite Erev. left. reflexivity. }
  replace (total <=? 0) with false by (symmetry; apply Z.leb_gt; lia).
  unfold bind, random_. simpl. destruct (random R (rnd w)). simpl. eexists. reflexivity.
Qed.

Lemma weighted_choice_ok : forall r (w : world R),
  pool_ok (deref (store w) r) -> exists nm, fst (weighted_choice r w) = inl nm.
Proof. intros r w H. unfold weighted_choice, bind, read_counter. apply choices_ok, H. Qed.

Lemma candidate_ok : forall refs (w : world R),
  pools_ok (store w) refs -> exists nm, fst (candidate refs w) = inl nm.
Proof.
  intros [[a b] c] w (Ha & Hb & Hc). unfold candidate, bind.
  destruct (weighted_choice_ok a w Ha) as [p Hp].
  pose proof (weighted_choice_keeps_store a w) as S1.
  destruct (weighted_choice a w) as [r1 w1]. simpl in Hp, S1. subst r1.
  rewrite <- S1 in Hb, Hc.
  destruct (weighted_choice_ok b w1 Hb) as [m Hm].
  pose proof (weighted_choice_keeps_store b w1) as S2.
  destruct (weighted_choice b w1) as [r2 w2]. simpl in Hm, S2. subst r2.
  rewrite <- S2 in Hc.
  destruct (weighted_choice_ok c w2 Hc) as [x Hx].
  destruct (weighted_choice c w2) as [r3 w3]. simpl in Hx. subst r3.
  eexists. reflexivity.
Qed.

Lemma attempts_from_keeps : forall refs j (w : world R),
  store (attempts_from refs j w) = store w /\ out (attempts_from refs j w) = out w.
Proof.
  intros refs. induction j as [|j IH]; intros w; simpl; [split; reflexivity|].
  destruct (IH (snd (candidate refs w))) as [H1 H2].
  rewrite H1, H2, (candidate_keeps_store refs w), (candidate_keeps_out refs w).
  split; reflexivity.
Qed.

Lemma generate_loop_spec : forall n refs mn mx (w : world R),
  pools_ok (store w) refs ->
  match generate_loop n refs mn mx w with
  | (inl name, w') =>
      exists k, (k < n)%nat /\
        (forall j, (j < k)%nat ->
           exists nm, attempt_name refs j w = inl nm /\ in_bounds mn mx nm = false) /\
        attempt_name refs k w = inl name /\ in_bounds mn mx name = true /\
        w' = attempts_from refs (S k) w
  | (inr e, w') =>
      e = RuntimeError bounds_msg /\ w' = attempts_from refs n w /\
      (forall j, (j < n)%nat ->
         exists nm, attempt_name refs j w = inl nm /\ in_bounds mn mx nm = false)
  end.
Proof.
  induction n as [|n IH]; intros refs mn mx w Hok.
  { simpl. split; [reflexivity|]. split; [reflexivity|]. intros j Hj. lia. }
  simpl generate_loop. unfold bind.
  destruct (candidate_ok refs w Hok) as [nm Hnm].
  pose proof (candidate_keeps_store refs w) as Hs.
  assert (A0 : attempt_name refs 0 w = inl nm) by exact Hnm.
  assert (AS : forall j, attempt_name refs (S j) w = attempt_name refs j (snd (candidate refs w)))
    by reflexivity.
  assert (WS : forall j, attempts_from refs (S j) w = attempts_from refs j (snd (candidate refs w)))
    by reflexivity.
  destruct (candidate refs w) as [r1 w1]. simpl in Hnm, Hs. subst r1.
  destruct (in_bounds mn mx nm) eqn:Hb.
  { exists 0%nat. repeat split; auto; try lia; try (intros j Hj; lia). }
  rewrite <- Hs in Hok.
  specialize (IH refs mn mx w1 Hok).
  destruct (generate_loop n refs mn mx w1) as [[name|e] w'].
  - destruct IH as (k & Hk & Hbefore & Hname & Hin & ->).
    exists (S k). repeat split; try lia; auto.
    + intros [|j] Hj; [exists nm; split; assumption|].
      rewrite AS. apply Hbefore. lia.
    + rewrite AS. exact Hname.
  - destruct IH as (-> & -> & Hall). repeat split; auto.
    intros [|j] Hj; [exists nm; split; assumption|].
    rewrite AS. apply Hall. lia.
Qed.

(** [generate_name] leaves the pools and stdout as they were, and either
    returns a name within the bounds or raises the bounds error. *)
Lemma generate_name_result : forall refs mn mx (w : world R),
  pools_ok (store w) refs ->
  store (snd (generate_name refs mn mx w)) = store w /\
  out (snd (generate_name refs mn mx w)) = out w /\
  match fst (generate_name refs mn mx w) with
  | inl name => in_bounds mn mx name = true
  | inr e => e = RuntimeError bounds_msg
  end.
Proof.
  intros refs mn mx w Hok. unfold generate_name.
  pose proof (generate_loop_spec 1000 refs mn mx w Hok) as H.
  destruct (generate_loop 1000 refs mn mx w) as [[name|e] w'].
  - destruct H as (k & _ & _ & _ & Hin & ->). simpl.
    destruct (attempts_from_keeps refs (S k) w) as [H1 H2]. auto.
  - destruct H as (-> & -> & _). simpl.
    destruct (attempts_from_keeps refs 1000 w) as [H1 H2]. auto.
Qed.

(** [for _ in range(count): print(generate_name(...))] under Ctrl-C after
    [K] names: either all [N] names are printed (when [N <= K]), or Ctrl-C
    comes after [K < N] names and the goodbye line follows them, or the
    bounds error is raised after fewer than [N] and fewer than [K] names. *)
Lemma finite_mode_spec : forall N K refs mn mx (w : world R),
  pools_ok (store w) refs ->
  let '(r, w') := finite_mode N K refs mn mx w in
  store w' = store w /\
  exists names, Forall (fun nm => in_bounds mn mx nm = true) names /\
    match r with
    | inl _ =>
        (out w' = out w ++ names /\ List.length names = N /\ (N <= K)%nat) \/
        (out w' = out w ++ names ++ [goodbye] /\ List.length names = K /\ (K < N)%nat)
    | inr e => e = RuntimeError bounds_msg /\ out w' = out w ++ names /\
               (List.length names < N)%nat /\ (List.length names < K)%nat
    end.
Proof.
  induction N as [|N IH]; intros K refs mn mx w Hok.
  { simpl. split; [reflexivity|]. exists []. split; [constructor|].
    left. rewrite app_nil_r. split; [reflexivity|]. simpl. lia. }
  destruct K as [|K].
  { simpl. split; [reflexivity|]. exists []. split; [constructor|].
    right. simpl. split; [reflexivity|]. lia. }
  simpl finite_mode. unfold bind at 1.
  destruct (generate_name_result refs mn mx w Hok) as (Hs & Ho & Hr).
  destruct (generate_name refs mn mx w) as [[name|e] w1]; simpl in Hs, Ho, Hr.
  - unfold bind at 1, print. simpl.
    set (w2 := {| store := store w1; rnd := rnd w1; out := out w1 ++ [name] |}).
    assert (Hok2 : pools_ok (store w2) refs) by (simpl; rewrite Hs; exact Hok).
    specialize (IH K refs mn mx w2 Hok2).
    destruct (finite_mode N K refs mn mx w2) as [r w'].
    destruct IH as (Hs' & names & Hall & Hr').
    split; [rewrite Hs'; simpl; exact Hs|].
    exists (name :: names). split; [constructor; assumption|].
    destruct r as [_|e]; simpl in Hr' |- *.
    + destruct Hr' as [(Ho' & Hl & HN)|(Ho' & Hl & HK)]; rewrite Ho'; simpl;
        rewrite Ho, <- app_assoc; simpl; [left|right]; (split; [reflexivity|lia]).
    + destruct Hr' as (-> & Ho' & Hl1 & Hl2). rewrite Ho'. simpl.
      rewrite Ho, <- app_assoc. simpl. split; [reflexivity|]. split; [reflexivity|lia].
  - simpl. split; [exact Hs|]. exists []. split; [constructor|].
    rewrite app_nil_r. split; [exact Hr|]. split; [exact Ho|simpl; lia].
Qed.

(** [print_lines] appends its lines to stdout and touches nothing else. *)
Lemma print_lines_eq : forall ls (w : world R),
  print_lines ls w = (inl tt, mkWorld (store w) (rnd w) (out w ++ ls)).
Proof.
  induction ls as [|l ls IH]; intros w; simpl.
  - destruct w as [st g o]. simpl. rewrite app_nil_r. reflexivity.
  - unfold bind, print at 1. rewrite IH. simpl. rewrite <- app_assoc. reflexivity.
Qed.


End WithSource.

End GenFacts.

(** * Properties of the driver *)

Module MainFacts.

Import PoolFacts.

(** [build_weighted_pools] returns the three Counter objects built by the
    loop, or raises the insufficient-data [ValueError]; nothing else. *)
Lemma build_cases : forall names,
  (exists ps, build_weighted_pools names = inl ps /\ ps = build_loop names) \/
  build_weighted_pools names = inr (ValueError insufficient_msg).
Proof.
  intros names. unfold build_weighted_pools.
  destruct (build_loop names) as [[pc mc] sc].
  destruct (negb (truthy pc && truthy mc && truthy sc)); [right; reflexivity|].
  left. eexists. split; reflexivity.
Qed.

Lemma build_loop_pools : forall names,
  build_loop names =
  (fold_left (pool_step sel_prefix) names [],
   fold_left (pool_step sel_middle) names [],
   fold_left (pool_step sel_suffix) names []).
Proof. intros names. apply build_loop_split. Qed.

Lemma truthy_nonempty {A} : forall l : list A, truthy l = true <-> l <> [].
Proof. intros [|x l]; simpl; split; congruence. Qed.

Lemma build_wf : forall names,
  let '(pc, mc, sc) := build_loop names in
  well_formed pc /\ well_formed mc /\ well_formed sc.
Proof.
  intros names. rewrite build_loop_pools.
  assert (H0 : well_formed []) by (intros k v []).
  split; [|split]; apply pool_wf, H0.
Qed.

(** The pools that [build_weighted_pools] returns satisfy the invariant
    the sampling relies on. *)
Lemma build_pools_ok : forall names ps,
  build_weighted_pools names = inl ps -> GenFacts.pools_ok ps (RefP, RefM, RefS).
Proof.
  intros names ps. unfold build_weighted_pools.
  pose proof (build_wf names) as Hwf.
  destruct (build_loop names) as [[pc mc] sc].
  destruct Hwf as (H1 & H2 & H3).
  destruct (truthy pc) eqn:Ep, (truthy mc) eqn:Em, (truthy sc) eqn:Es; simpl;
    try discriminate.
  intros E. injection E as <-.
  apply truthy_nonempty in Ep, Em, Es.
  unfold GenFacts.pools_ok, GenFacts.pool_ok. simpl. auto.
Qed.

End MainFacts.

(** * Properties of [str.strip] and of line reading *)

Module TextFacts.

Definition all_space (s : ustr) : Prop := Forall (fun c => is_space c = true) s.

(** [s] starts (or, for [ends_ok], ends) with a character that is not
    whitespace, or is empty. *)
Definition starts_ok (s : ustr) : Prop :=
  match s with [] => True | c :: _ => is_space c = false end.

Definition ends_ok (s : ustr) : Prop := starts_ok (rev s).

Lemma lstrip_app : forall pre rest,
  all_space pre -> starts_ok rest -> lstrip (pre ++ rest) = rest.
Proof.
  induction pre as [|c pre IH]; intros rest Hpre Hrest; simpl.
  - destruct rest as [|c rest]; simpl in *; [reflexivity|]. rewrite Hrest. reflexivity.
  - inversion Hpre as [|? ? Hc Hpre']; subst. rewrite Hc. apply IH; assumption.
Qed.

Lemma lstrip_split : forall s,
  exists pre, s = pre ++ lstrip s /\ all_space pre /\ starts_ok (lstrip s).
Proof.
  induction s as [|c s IH]; simpl.
  - exists []. repeat constructor.
  - destruct (is_space c) eqn:Hc.
    + destruct IH as (pre & E & Hp & Hs). exists (c :: pre).
      split; [rewrite E at 1; reflexivity|]. split; [constructor; assumption|exact Hs].
    + exists []. split; [reflexivity|]. split; [constructor|exact Hc].
Qed.

Lemma all_space_rev : forall s, all_space s -> all_space (rev s).
Proof. intros s H. apply Forall_rev, H. Qed.

(** [strip] removes exactly the whitespace at both ends. *)
Lemma strip_char : forall pre mid suf,
  all_space pre -> all_space suf -> starts_ok mid -> ends_ok mid ->
  strip (pre ++ mid ++ suf) = mid.
Proof.
  intros pre mid suf Hp Hs Hm1 Hm2. unfold strip, rstrip.
  destruct mid as [|c mid'].
  - simpl. assert (H : all_space (pre ++ suf)) by (apply Forall_app; split; assumption).
    rewrite <- (app_nil_r (pre ++ suf)), (lstrip_app (pre ++ suf) [] H I). reflexivity.
  - rewrite (lstrip_app pre ((c :: mid') ++ suf) Hp Hm1).
    rewrite rev_app_distr, (lstrip_app (rev suf) (rev (c :: mid')) (all_space_rev _ Hs) Hm2).
    apply rev_involutive.
Qed.

Lemma rstrip_split : forall s,
  exists suf, s = rstrip s ++ suf /\ all_space suf /\ ends_ok (rstrip s).
Proof.
  intros s. unfold rstrip, ends_ok. destruct (lstrip_split (rev s)) as (pre & E & Hp & Hs).
  exists (rev pre). rewrite rev_involutive. split; [|split; [apply all_space_rev, Hp|exact Hs]].
  rewrite <- rev_app_distr, <- E, rev_involutive. reflexivity.
Qed.

Lemma starts_ok_app : forall a b, starts_ok (a ++ b) -> a <> [] -> starts_ok a.
Proof. intros [|c a] b H Ha; [congruence|exact H]. Qed.

(** [strip s] is [s] without some whitespace at its ends, and it starts
    and ends with a character that is not whitespace (or is empty). *)
Lemma strip_split : forall s,
  exists pre suf, s = pre ++ strip s ++ suf /\ all_space pre /\ all_space suf /\
                  starts_ok (strip s) /\ ends_ok (strip s).
Proof.
  intros s. destruct (lstrip_split s) as (pre & E1 & Hp & Hs1).
  destruct (rstrip_split (lstrip s)) as (suf & E2 & Hs & He).
  exists pre, suf. unfold strip. rewrite <- E2.
  split; [exact E1|]. split; [exact Hp|]. split; [exact Hs|]. split; [|exact He].
  destruct (rstrip (lstrip s)) as [|c r] eqn:Er; [exact I|].
  rewrite E2 in Hs1. exact Hs1.
Qed.

Lemma strip_idem : forall s, strip (strip s) = strip s.
Proof.
  intros s. destruct (strip_split s) as (pre & suf & _ & _ & _ & H1 & H2).
  rewrite <- (app_nil_r (strip s)) at 1. rewrite <- (app_nil_l (strip s ++ [])).
  apply strip_char; [constructor|constructor|exact H1|exact H2].
Qed.

Lemma strip_app_space : forall s c, is_space c = true -> strip (s ++ [c]) = strip s.
Proof.
  intros s c Hc. destruct (strip_split s) as (pre & suf & E & Hp & Hs & H1 & H2).
  rewrite E at 1. rewrite <- !app_assoc. apply strip_char; try assumption.
  apply Forall_app. split; [exact Hs|]. constructor; [exact Hc|constructor].
Qed.

Lemma in_strip : forall s c, In c (strip s) -> In c s.
Proof.
  intros s c H. destruct (strip_split s) as (pre & suf & E & _).
  rewrite E. apply in_or_app. right. apply in_or_app. left. exact H.
Qed.

(** ** Line reading *)

Definition no_newline (l : ustr) : Prop := ~ In 10 l /\ ~ In 13 l.

Lemma translate_no_cr : forall s, ~ In 13 (translate_newlines s).
Proof.
  fix IH 1. intros [|c s]; simpl; [tauto|].
  pose proof (IH s) as IHs.
  destruct (Z.eqb_spec c 13).
  - destruct s as [|d s']; [simpl; lia|].
    destruct (d =? 10); (intros [H|H]; [lia|]); [exact (IH s' H)|exact (IHs H)].
  - intros [H|H]; [lia|exact (IHs H)].
Qed.

Lemma translate_id : forall s, ~ In 13 s -> translate_newlines s = s.
Proof.
  induction s as [|c s IH]; intros H; simpl; [reflexivity|].
  destruct (Z.eqb_spec c 13) as [->|Hc]; [exfalso; apply H; left; reflexivity|].
  rewrite IH by (intros H'; apply H; right; exact H'). reflexivity.
Qed.

(** The lines of [readlines_text]: each is a line without line break,
    followed by ["\n"] (all lines but possibly the last). *)
Lemma lines_acc_shape : forall s cur,
  no_newline cur -> ~ In 13 s ->
  Forall (fun l => exists l', no_newline l' /\ (l = l' ++ [10] \/ l = l')) (lines_acc cur s).
Proof.
  induction s as [|c s IH]; intros cur Hcur Hs; simpl.
  - destruct cur; repeat constructor. exists (z :: cur). split; [exact Hcur|right; reflexivity].
  - destruct (Z.eqb_spec c 10) as [->|Hc].
    + constructor.
      * exists cur. split; [exact Hcur|left; reflexivity].
      * apply IH; [split; simpl; tauto|intros H; apply Hs; right; exact H].
    + apply IH; [|intros H; apply Hs; right; exact H].
      destruct Hcur as [H1 H2]. split; intros H; apply in_app_or in H;
        destruct H as [H|[H|[]]]; try tauto.
      all: subst; apply Hs; left; reflexivity.
Qed.

Lemma readlines_shape : forall s,
  Forall (fun l => exists l', no_newline l' /\ (l = l' ++ [10] \/ l = l')) (readlines_text s).
Proof.
  intros s. apply lines_acc_shape; [split; simpl; tauto|apply translate_no_cr].
Qed.

(** A line read and trimmed holds no line break. *)
Lemma strip_line_no_newline : forall l,
  (exists l', no_newline l' /\ (l = l' ++ [10] \/ l = l')) -> no_newline (strip l).
Proof.
  intros l (l' & [H1 H2] & [->| ->]).
  - rewrite strip_app_space by reflexivity.
    split; intros H; apply in_strip in H; tauto.
  - split; intros H; apply in_strip in H; tauto.
Qed.

Lemma lines_acc_written : forall ls cur,
  Forall no_newline ls -> no_newline cur ->
  lines_acc cur (write_lines ls) =
  match ls with
  | [] => match cur with [] => [] | _ => [cur] end
  | l :: ls' => (cur ++ l ++ [10]) :: map (fun l => l ++ [10]) ls'
  end.
Proof.
  induction ls as [|l ls IH]; intros cur Hls Hcur; [reflexivity|].
  inversion Hls as [|? ? Hl Hls']; subst. unfold write_lines. simpl.
  rewrite <- app_assoc. revert cur Hcur. induction l as [|c l IHl]; intros cur Hcur.
  - simpl. f_equal. fold (write_lines ls).
    rewrite IH by (try assumption; split; simpl; tauto).
    destruct ls as [|l' ls'']; reflexivity.
  - simpl. destruct Hl as [Hl1 Hl2].
    assert (Hc : c <> 10) by (intros ->; apply Hl1; left; reflexivity).
    apply Z.eqb_neq in Hc. rewrite Hc.
    rewrite IHl.
    + rewrite <- app_assoc. reflexivity.
    + constructor; [|exact Hls']. split; intros H; [apply Hl1|apply Hl2]; right; exact H.
    + split; intros H; [apply Hl1|apply Hl2]; right; exact H.
    + destruct Hcur as [H1 H2]. split; intros H; apply in_app_or in H;
        destruct H as [H|[H|[]]]; try tauto; subst;
        [apply Hl1|apply Hl2]; left; reflexivity.
Qed.

(** Lines without line breaks, written one per line, read back as they
    were written. *)
Lemma readlines_written : forall ls,
  Forall no_newline ls -> readlines_text (write_lines ls) = map (fun l => l ++ [10]) ls.
Proof.
  intros ls H. unfold readlines_text.
  rewrite translate_id.
  - rewrite lines_acc_written by (try assumption; split; simpl; tauto).
    destruct ls; reflexivity.
  - unfold write_lines. intros Hin. apply in_concat in Hin.
    destruct Hin as (l & Hl & Hin). apply in_map_iff in Hl.
    destruct Hl as (l0 & <- & Hl0). rewrite Forall_forall in H.
    destruct (H l0 Hl0) as [_ H2]. apply in_app_or in Hin.
    destruct Hin as [Hin|[Hin|[]]]; [tauto|lia].
Qed.

End TextFacts.

(** * More properties of sampling *)

Module SampleFacts.

(** [bisect_right] stays within [[lo, hi]]. *)
Lemma bisect_loop_range : forall fuel a x lo hi,
  lo <= hi -> lo <= bisect_loop fuel a x lo hi <= hi.
Proof.
  induction fuel as [|fuel IH]; intros a x lo hi H; simpl; [lia|].
  destruct (Z.ltb_spec lo hi) as [Hlt|Hge]; [|lia].
  assert (Hm : lo <= (lo + hi) / 2 < hi)
    by (split; [apply Z.div_le_lower_bound|apply Z.div_lt_upper_bound]; lia).
  destruct (x <? nth (Z.to_nat ((lo + hi) / 2)) a 0);
    [pose proof (IH a x lo ((lo + hi) / 2))|pose proof (IH a x ((lo + hi) / 2 + 1) hi)]; lia.
Qed.

Definition monotone (a : list Z) : Prop :=
  forall i j, (i <= j < List.length a)%nat -> nth i a 0 <= nth j a 0.

(** [bisect_right] on a sorted list returns the first index whose entry
    is greater than [x], when there is one at or before [hi]. *)
Lemma bisect_loop_correct : forall fuel a x lo hi,
  (Z.to_nat (hi - lo) <= fuel)%nat -> 0 <= lo <= hi -> (Z.to_nat hi < List.length a)%nat ->
  monotone a ->
  (forall j, (j < Z.to_nat lo)%nat -> nth j a 0 <= x) -> x < nth (Z.to_nat hi) a 0 ->
  let r := bisect_loop fuel a x lo hi in
  (forall j, (j < Z.to_nat r)%nat -> nth j a 0 <= x) /\ x < nth (Z.to_nat r) a 0.
Proof.
  induction fuel as [|fuel IH]; intros a x lo hi Hf Hlh Hhi Hmono Hlo Hx; simpl.
  - replace lo with hi by lia. split; [|exact Hx]. replace hi with lo by lia. exact Hlo.
  - destruct (Z.ltb_spec lo hi) as [Hlt|Hge]; [|replace lo with hi in * by lia; auto].
    assert (Hm : lo <= (lo + hi) / 2 < hi)
      by (split; [apply Z.div_le_lower_bound|apply Z.div_lt_upper_bound]; lia).
    destruct (Z.ltb_spec x (nth (Z.to_nat ((lo + hi) / 2)) a 0)) as [Hx'|Hx'].
    + apply IH; auto; lia.
    + apply IH; auto; try lia.
      intros j Hj. destruct (Nat.lt_ge_cases j (Z.to_nat lo)) as [Hj'|Hj']; [apply Hlo, Hj'|].
      eapply Z.le_trans; [|exact Hx']. apply Hmono. lia.
Qed.

Lemma accumulate_mono : forall ws a,
  Forall (fun v => 1 <= v) ws -> monotone (accumulate a ws).
Proof.
  induction ws as [|v ws IH]; intros a Hws i j Hij; simpl in *; [lia|].
  inversion Hws as [|? ? Hv Hws']; subst.
  destruct i as [|i], j as [|j]; try lia.
  - simpl. rewrite GenFacts.length_accumulate in Hij.
    assert (Hin : In (nth j (accumulate (a + v) ws) 0) (accumulate (a + v) ws))
      by (apply nth_In; rewrite GenFacts.length_accumulate; lia).
    pose proof (GenFacts.accumulate_gt ws (a + v) _ Hws' Hin). lia.
  - simpl. apply IH; [exact Hws'|]. lia.
Qed.

Section WithSource.

Variable R : random_source.

(** [random.choices] on the items of a pool: one call of [random()], and
    the key at the index [bisect_right] finds for [floor(random() * total)]. *)
Lemma choices_eq : forall (c : counter) (w : world R),
  GenFacts.pool_ok c ->
  exists total, 0 < total /\ total = nth (List.length c - 1) (accumulate 0 (map snd c)) 0 /\
  choices (map fst c) (map snd c) w =
    let '(d, g) := random R (rnd w) in
    (inl (nth (Z.to_nat (bisect (accumulate 0 (map snd c)) (floor_scaled R d total) 0
                          (Z.of_nat (List.length c) - 1))) (map fst c) []),
     mkWorld (store w) g (out w)).
Proof.
  intros c w [Hne Hwf]. unfold choices.
  rewrite GenFacts.length_accumulate, !length_map, Z.eqb_refl. simpl negb. cbv iota.
  destruct (rev (accumulate 0 (map snd c))) as [|total rest] eqn:Erev.
  { apply (f_equal (@List.length Z)) in Erev.
    rewrite length_rev, GenFacts.length_accumulate, length_map in Erev.
    destruct c; [congruence|discriminate]. }
  assert (Htot : 0 < total).
  { apply (GenFacts.accumulate_gt (map snd c) 0 total).
    - apply Forall_forall. intros v Hv. apply in_map_iff in Hv.
      destruct Hv as [[k v'] [<- Hin]]. apply (Hwf k v' Hin).
    - apply in_rev. rewrite Erev. left. reflexivity. }
  exists total. split; [exact Htot|]. split.
  { assert (Hl : List.length (accumulate 0 (map snd c)) = S (List.length rest))
      by (rewrite <- length_rev, Erev; reflexivity).
    rewrite GenFacts.length_accumulate, length_map in Hl.
    apply (f_equal (@rev Z)) in Erev. rewrite rev_involutive in Erev. simpl in Erev.
    rewrite Erev, app_nth2; rewrite length_rev; [|lia].
    replace (List.length c - 1 - List.length rest)%nat with O by lia. reflexivity. }
  replace (total <=? 0) with false by (symmetry; apply Z.leb_gt; lia).
  cbn [negb]. unfold bind, random_, ret. destruct (random R (rnd w)). reflexivity.
Qed.

Lemma bisect_index : forall (c : counter) a x,
  c <> [] ->
  (Z.to_nat (bisect a x 0 (Z.of_nat (List.length c) - 1)) < List.length c)%nat.
Proof.
  intros c a x Hne. unfold bisect.
  assert (Hn : (1 <= List.length c)%nat) by (destruct c; [congruence|simpl; lia]).
  pose proof (bisect_loop_range (Z.to_nat (Z.of_nat (List.length c) - 1 - 0)) a x 0
                (Z.of_nat (List.length c) - 1)) as H.
  lia.
Qed.

(** [weighted_choice] returns one of the keys of the pool. *)
Lemma choices_member : forall (c : counter) (w : world R),
  GenFacts.pool_ok c ->
  exists nm, choices (map fst c) (map snd c) w = (inl nm, mkWorld (store w) (snd (random R (rnd w))) (out w)) /\
             In nm (map fst c).
Proof.
  intros c w Hok. destruct (choices_eq c w Hok) as (total & _ & _ & ->).
  destruct (random R (rnd w)) as [d g]. eexists. split; [reflexivity|].
  apply nth_In. rewrite length_map. apply bisect_index, (proj1 Hok).
Qed.

(** The key [random.choices] picks is the one whose cumulative interval
    contains [x = floor(random() * total)]: the counts before it add up to
    at most [x], and with its own count they exceed [x]. *)
Lemma choices_select : forall (c : counter) (w : world R) d g,
  GenFacts.pool_ok c -> random R (rnd w) = (d, g) ->
  let cum := accumulate 0 (map snd c) in
  let x := floor_scaled R d (nth (List.length c - 1) cum 0) in
  x < nth (List.length c - 1) cum 0 ->
  exists i, (i < List.length c)%nat /\
    fst (choices (map fst c) (map snd c) w) = inl (nth i (map fst c) []) /\
    (forall j, (j < i)%nat -> nth j cum 0 <= x) /\ x < nth i cum 0.
Proof.
  intros c w d g Hok Hr cum x Hx.
  destruct (choices_eq c w Hok) as (total & Htot & Et & ->). rewrite Hr.
  subst cum x. rewrite <- Et in Hx |- *.
  assert (Hn : (1 <= List.length c)%nat) by (destruct c; [destruct Hok; congruence|simpl; lia]).
  exists (Z.to_nat (bisect (accumulate 0 (map snd c)) (floor_scaled R d total) 0
                     (Z.of_nat (List.length c) - 1))).
  split; [apply bisect_index, (proj1 Hok)|]. split; [reflexivity|].
  unfold bisect. apply bisect_loop_correct.
  - lia.
  - lia.
  - rewrite GenFacts.length_accumulate, length_map. lia.
  - apply accumulate_mono. apply Forall_forall. intros v Hv. apply in_map_iff in Hv.
    destruct Hv as [[k v'] [<- Hin]]. apply (proj2 Hok k v' Hin).
  - intros j Hj. simpl in Hj. lia.
  - replace (Z.to_nat (Z.of_nat (List.length c) - 1)) with (List.length c - 1)%nat by lia.
    rewrite <- Et. exact Hx.
Qed.

Lemma weighted_choice_member : forall r (w : world R),
  GenFacts.pool_ok (deref (store w) r) ->
  exists nm, weighted_choice r w = (inl nm, mkWorld (store w) (snd (random R (rnd w))) (out w)) /\
             In nm (map fst (deref (store w) r)).
Proof. intros r w H. unfold weighted_choice, bind, read_counter. apply choices_member, H. Qed.

Lemma candidate_parts : forall a b c (w : world R),
  GenFacts.pools_ok (store w) (a, b, c) ->
  exists p m s w', candidate (a, b, c) w = (inl (p ++ m ++ s), w') /\ store w' = store w /\
    In p (map fst (deref (store w) a)) /\ In m (map fst (deref (store w) b)) /\
    In s (map fst (deref (store w) c)).
Proof.
  intros a b c w (Ha & Hb & Hc). unfold candidate, bind.
  destruct (weighted_choice_member a w Ha) as (p & -> & Hp). cbv beta iota.
  destruct (weighted_choice_member b (mkWorld (store w) (snd (random R (rnd w))) (out w)) Hb)
    as (m & -> & Hm). cbv beta iota. cbn [store rnd out].
  destruct (weighted_choice_member c
    (mkWorld (store w) (snd (random R (snd (random R (rnd w))))) (out w)) Hc)
    as (x & -> & Hx). cbv beta iota.
  exists p, m, x. eexists. split; [reflexivity|]. simpl. auto.
Qed.

(** [gen_list k]: [k] names within the bounds, or the bounds error; the
    pools are left as they were. *)
Lemma gen_list_spec : forall k refs mn mx (w : world R),
  GenFacts.pools_ok (store w) refs ->
  match gen_list k refs mn mx w with
  | (inl names, w') =>
      List.length names = k /\ Forall (fun nm => in_bounds mn mx nm = true) names /\
      store w' = store w
  | (inr e, w') => e = RuntimeError bounds_msg /\ store w' = store w
  end.
Proof.
  induction k as [|k IH]; intros refs mn mx w Hok; simpl.
  { auto. }
  unfold bind at 1.
  destruct (GenFacts.generate_name_result R refs mn mx w Hok) as (Hs & _ & Hr).
  destruct (generate_name refs mn mx w) as [[name|e] w1]; simpl in Hs, Hr; [|auto].
  rewrite <- Hs in Hok. specialize (IH refs mn mx w1 Hok).
  unfold bind. destruct (gen_list k refs mn mx w1) as [[names|e] w2].
  - destruct IH as (Hl & Hall & Hs2). unfold ret. simpl.
    split; [lia|]. split; [constructor; assumption|congruence].
  - destruct IH as [-> Hs2]. split; [reflexivity|congruence].
Qed.

End WithSource.

End SampleFacts.

(** * Where the generated parts come from *)

Module RecombFacts.

Import PoolFacts.

Lemma keys_incr : forall k k' c,
  In k (map fst (counter_incr k' c)) <-> k = k' \/ In k (map fst c).
Proof.
  intros k k'. induction c as [|[k'' v] c IH]; simpl.
  - intuition.
  - destruct (list_eq_dec Z.eq_dec k' k'') as [->|Hne]; simpl.
    + intuition.
    + rewrite IH. intuition.
Qed.

(** A key of a pool is the non-empty part of one of the names. *)
Lemma pool_keys : forall sel names c k,
  In k (map fst (fold_left (pool_step sel) names c)) <->
  In k (map fst c) \/ (k <> [] /\ exists raw, In raw names /\ sel (split_name raw) = k).
Proof.
  intros sel. induction names as [|raw names IH]; intros c k; simpl.
  { split; [intros H; left; exact H|intros [H|(_ & raw & [] & _)]; exact H]. }
  rewrite IH. unfold pool_step.
  destruct (sel (split_name raw)) as [|z seg] eqn:E; simpl truthy; cbv iota.
  - split.
    + intros [H|(Hk & r & Hr & Hs)]; [left; exact H|right; split; [exact Hk|eauto]].
    + intros [H|(Hk & r & [<-|Hr] & Hs)]; [left; exact H| |right; eauto].
      congruence.
  - rewrite keys_incr. split.
    + intros [[->|H]|(Hk & r & Hr & Hs)].
      * right. split; [discriminate|]. exists raw. auto.
      * left. exact H.
      * right. split; [exact Hk|eauto].
    + intros [H|(Hk & r & [<-|Hr] & Hs)].
      * left. right. exact H.
      * left. left. congruence.
      * right. split; [exact Hk|eauto].
Qed.

Lemma built_keys : forall names ps k,
  build_weighted_pools names = inl ps ->
  (In k (map fst (deref ps RefP)) -> exists raw, In raw names /\ fst (fst (split_name raw)) = k) /\
  (In k (map fst (deref ps RefM)) -> exists raw, In raw names /\ snd (fst (split_name raw)) = k) /\
  (In k (map fst (deref ps RefS)) -> exists raw, In raw names /\ snd (split_name raw) = k).
Proof.
  intros names ps k Hb.
  destruct (MainFacts.build_cases names) as [(ps' & E & ->)|E]; rewrite Hb in E; [|discriminate].
  injection E as ->. rewrite MainFacts.build_loop_pools. simpl.
  split; [|split]; intros H; apply pool_keys in H;
    destruct H as [[]|(_ & raw & Hr & Hs)]; eauto.
Qed.

(** A decision procedure for [pool_ok], to check it on given pools. *)
Definition pool_okb (c : counter) : bool :=
  truthy c && forallb (fun kv => truthy (fst kv) && (1 <=? snd kv)) c.

Lemma pool_okb_spec : forall c, pool_okb c = true -> GenFacts.pool_ok c.
Proof.
  intros c H. unfold pool_okb in H. apply andb_true_iff in H as [H1 H2].
  split; [destruct c; discriminate|].
  intros k v Hin. rewrite forallb_forall in H2. specialize (H2 _ Hin).
  apply andb_true_iff in H2 as [H2 H3]. simpl in H2, H3.
  split; [destruct k; discriminate|apply Z.leb_le; exact H3].
Qed.

Section WithSource.

Variable R : random_source.

Lemma generate_name_parts : forall a b c mn mx (w : world R) name,
  GenFacts.pools_ok (store w) (a, b, c) ->
  fst (generate_name (a, b, c) mn mx w) = inl name ->
  exists p m s, name = p ++ m ++ s /\
    In p (map fst (deref (store w) a)) /\ In m (map fst (deref (store w) b)) /\
    In s (map fst (deref (store w) c)) /\ in_bounds mn mx name = true.
Proof.
  intros a b c mn mx w name Hok Hname. unfold generate_name in Hname.
  pose proof (GenFacts.generate_loop_spec R 1000 (a, b, c) mn mx w Hok) as H.
  destruct (generate_loop 1000 (a, b, c) mn mx w) as [[nm|e] w']; simpl in Hname;
    [|discriminate]. injection Hname as ->.
  destruct H as (k & _ & _ & Hk & Hin & _).
  unfold GenFacts.attempt_name in Hk.
  pose proof (GenFacts.attempts_from_keeps R (a, b, c) k w) as [Hs _].
  rewrite <- Hs in Hok.
  destruct (SampleFacts.candidate_parts R a b c _ Hok) as (p & m & s & w1 & E & _ & Hp & Hm & Hs').
  rewrite E in Hk. simpl in Hk. injection Hk as <-. rewrite Hs in Hp, Hm, Hs'.
  exists p, m, s. auto.
Qed.

Lemma gen_list_parts : forall k a b c mn mx (w : world R) names,
  GenFacts.pools_ok (store w) (a, b, c) ->
  fst (gen_list k (a, b, c) mn mx w) = inl names ->
  Forall (fun name => exists p m s, name = p ++ m ++ s /\
    In p (map fst (deref (store w) a)) /\ In m (map fst (deref (store w) b)) /\
    In s (map fst (deref (store w) c)) /\ in_bounds mn mx name = true) names.
Proof.
  induction k as [|k IH]; intros a b c mn mx w names Hok Hn; simpl in Hn.
  { injection Hn as <-. constructor. }
  unfold bind at 1 in Hn.
  pose proof (generate_name_parts a b c mn mx w) as Hparts.
  pose proof (GenFacts.generate_name_keeps_store R (a, b, c) mn mx w) as Hs.
  destruct (generate_name (a, b, c) mn mx w) as [[nm|e] w1] eqn:E; simpl in Hn, Hs;
    [|discriminate].
  specialize (Hparts nm Hok eq_refl).
  rewrite <- Hs in Hok. specialize (IH a b c mn mx w1).
  unfold bind in Hn.
  destruct (gen_list k (a, b, c) mn mx w1) as [[rest|e] w2]; simpl in Hn; [|discriminate].
  injection Hn as <-. constructor; [exact Hparts|].
  rewrite <- Hs. apply IH; [exact Hok|reflexivity].
Qed.

End WithSource.

End RecombFacts.

(** * Sorting, totals and vowel positions *)

Module TallyFacts.

Import PoolFacts.

(** The order [most_common] produces: by descending count. *)
Definition desc (x y : ustr * Z) : Prop := snd y <= snd x.

Lemma insert_desc_perm : forall x l, Permutation (insert_desc x l) (x :: l).
Proof.
  intros x. induction l as [|y l IH]; simpl; [reflexivity|].
  destruct (snd x <=? snd y); [|reflexivity].
  rewrite IH. apply perm_swap.
Qed.

Lemma insert_desc_hd : forall x y l,
  HdRel desc y l -> desc y x -> HdRel desc y (insert_desc x l).
Proof.
  intros x y [|z l] Hy Hxy; simpl; [constructor; exact Hxy|].
  destruct (snd x <=? snd z); constructor; [inversion Hy; assumption|exact Hxy].
Qed.

Lemma insert_desc_sorted : forall x l, Sorted desc l -> Sorted desc (insert_desc x l).
Proof.
  intros x. induction l as [|y l IH]; intros H; simpl.
  { constructor; constructor. }
  inversion H as [|? ? Hl Hhd]; subst.
  destruct (snd x <=? snd y) eqn:E.
  - constructor; [apply IH, Hl|]. apply insert_desc_hd; [exact Hhd|].
    unfold desc. apply Z.leb_le, E.
  - constructor; [exact H|]. constructor. unfold desc. apply Z.leb_gt in E. lia.
Qed.

Lemma most_common_perm_gen : forall c acc,
  Permutation (fold_left (fun acc x => insert_desc x acc) c acc) (c ++ acc).
Proof.
  induction c as [|x c IH]; intros acc; simpl; [reflexivity|].
  rewrite IH, insert_desc_perm. apply Permutation_sym, Permutation_middle.
Qed.

Lemma most_common_perm : forall c, Permutation (most_common c) c.
Proof. intros c. unfold most_common. rewrite most_common_perm_gen, app_nil_r. reflexivity. Qed.

Lemma most_common_sorted_gen : forall c acc,
  Sorted desc acc -> Sorted desc (fold_left (fun acc x => insert_desc x acc) c acc).
Proof.
  induction c as [|x c IH]; intros acc H; simpl; [exact H|].
  apply IH, insert_desc_sorted, H.
Qed.

Lemma most_common_sorted : forall c, Sorted desc (most_common c).
Proof. intros c. apply most_common_sorted_gen. constructor. Qed.

Lemma desc_trans : forall x y z, desc x y -> desc y z -> desc x z.
Proof. intros x y z H1 H2. unfold desc in *. lia. Qed.

Definition count_is (v : Z) (e : ustr * Z) : bool := snd e =? v.

Lemma filter_none {A} : forall (f : A -> bool) l,
  (forall e, In e l -> f e = false) -> filter f l = [].
Proof.
  intros f. induction l as [|e l IH]; intros H; simpl; [reflexivity|].
  rewrite (H e (or_introl eq_refl)). apply IH. intros e' He'. apply H. right. exact He'.
Qed.

Lemma insert_desc_filter : forall v x l, Sorted desc l ->
  filter (count_is v) (insert_desc x l) =
  if count_is v x then filter (count_is v) l ++ [x] else filter (count_is v) l.
Proof.
  intros v x. induction l as [|y l IH]; intros H; simpl.
  { destruct (count_is v x); reflexivity. }
  inversion H as [|? ? Hl Hhd]; subst.
  destruct (snd x <=? snd y) eqn:E.
  - simpl. rewrite (IH Hl). destruct (count_is v y), (count_is v x); reflexivity.
  - simpl. apply Z.leb_gt in E.
    destruct (count_is v x) eqn:Ex; [|reflexivity].
    unfold count_is in Ex. apply Z.eqb_eq in Ex. subst v.
    assert (Hall : forall e, In e (y :: l) -> snd e <= snd y).
    { apply Sorted_StronglySorted in H; [|exact desc_trans].
      intros e [<-|He]; [lia|].
      inversion H as [|? ? _ Hf]; subst.
      rewrite Forall_forall in Hf. apply Hf, He. }
    assert (Hnil : filter (count_is (snd x)) (y :: l) = []).
    { apply filter_none.
      intros e He. apply Z.eqb_neq. specialize (Hall e He). lia. }
    simpl in Hnil. rewrite Hnil. reflexivity.
Qed.

Lemma most_common_filter_gen : forall v c acc, Sorted desc acc ->
  filter (count_is v) (fold_left (fun acc x => insert_desc x acc) c acc) =
  filter (count_is v) acc ++ filter (count_is v) c.
Proof.
  intros v. induction c as [|x c IH]; intros acc H; simpl.
  { rewrite app_nil_r. reflexivity. }
  rewrite IH by (apply insert_desc_sorted, H).
  rewrite insert_desc_filter by exact H.
  destruct (count_is v x); [rewrite <- app_assoc|]; reflexivity.
Qed.

(** Entries with the same count keep the order they have in the Counter. *)
Lemma most_common_stable : forall v c,
  filter (count_is v) (most_common c) = filter (count_is v) c.
Proof. intros v c. unfold most_common. rewrite most_common_filter_gen by constructor. reflexivity. Qed.

(** [sum(counter.values())] *)
Definition total (c : counter) : Z := fold_left Z.add (map snd c) 0.

Lemma fold_add_shift : forall l a, fold_left Z.add l a = a + fold_left Z.add l 0.
Proof.
  induction l as [|x l IH]; intros a; simpl; [lia|].
  rewrite (IH (a + x)), (IH x). lia.
Qed.

Lemma total_cons : forall k v c, total ((k, v) :: c) = v + total c.
Proof. intros k v c. unfold total. simpl. apply fold_add_shift. Qed.

Lemma total_incr : forall k c, total (counter_incr k c) = total c + 1.
Proof.
  intros k. induction c as [|[k' v] c IH]; simpl.
  - reflexivity.
  - destruct (list_eq_dec Z.eq_dec k k'); rewrite !total_cons; [|rewrite IH]; lia.
Qed.

Lemma total_pool : forall sel names c,
  total (fold_left (pool_step sel) names c) =
  total c + Z.of_nat (List.length (filter (fun raw => truthy (sel (split_name raw))) names)).
Proof.
  intros sel. induction names as [|raw names IH]; intros c; simpl; [lia|].
  rewrite IH. unfold pool_step.
  destruct (truthy (sel (split_name raw))); simpl List.length; [rewrite total_incr|]; lia.
Qed.

Lemma prefix_truthy : forall raw, truthy (fst (fst (split_name raw))) = truthy (strip raw).
Proof.
  intros raw. destruct (strip raw) as [|z t] eqn:E.
  - rewrite (SplitFacts.split_empty raw E). reflexivity.
  - destruct (SplitFacts.split_ends_nonempty raw ltac:(rewrite E; discriminate)) as [H _].
    destruct (fst (fst (split_name raw))); [congruence|reflexivity].
Qed.

Lemma suffix_truthy : forall raw, truthy (snd (split_name raw)) = truthy (strip raw).
Proof.
  intros raw. destruct (strip raw) as [|z t] eqn:E.
  - rewrite (SplitFacts.split_empty raw E). reflexivity.
  - destruct (SplitFacts.split_ends_nonempty raw ltac:(rewrite E; discriminate)) as [_ H].
    destruct (snd (split_name raw)); [congruence|reflexivity].
Qed.

Lemma vpf_spec : forall s i x,
  In x (vowel_positions_from i s) <->
  i <= x < i + Z.of_nat (List.length s) /\ is_vowel (nth (Z.to_nat (x - i)) s 0) = true.
Proof.
  induction s as [|ch s IH]; intros i x; simpl.
  { split; [contradiction|lia]. }
  assert (Hsplit : forall P : Prop, (x = i -> P) -> (i + 1 <= x -> P) -> (i <= x -> P)).
  { intros P H1 H2 Hx. destruct (Z.eq_dec x i); [apply H1; assumption|apply H2; lia]. }
  destruct (is_vowel ch) eqn:Hv.
  - simpl. rewrite IH. split.
    + intros [<-|(Hb & Hvw)].
      * replace (i - i) with 0 by lia. simpl. split; [lia|exact Hv].
      * replace (Z.to_nat (x - i)) with (S (Z.to_nat (x - (i + 1)))) by lia.
        split; [lia|exact Hvw].
    + intros (Hb & Hvw). destruct (Z.eq_dec x i) as [->|Hne]; [left; reflexivity|right].
      replace (Z.to_nat (x - i)) with (S (Z.to_nat (x - (i + 1)))) in Hvw by lia.
      split; [lia|exact Hvw].
  - rewrite IH. split.
    + intros (Hb & Hvw).
      replace (Z.to_nat (x - i)) with (S (Z.to_nat (x - (i + 1)))) by lia.
      split; [lia|exact Hvw].
    + intros (Hb & Hvw). destruct (Z.eq_dec x i) as [->|Hne].
      * replace (i - i) with 0 in Hvw by lia. simpl in Hvw. congruence.
      * replace (Z.to_nat (x - i)) with (S (Z.to_nat (x - (i + 1)))) in Hvw by lia.
        split; [lia|exact Hvw].
Qed.

Lemma vpf_sorted : forall s i, Sorted Z.lt (vowel_positions_from i s).
Proof.
  induction s as [|ch s IH]; intros i; simpl; [constructor|].
  destruct (is_vowel ch); [|apply IH].
  constructor; [apply IH|].
  destruct (vowel_positions_from (i + 1) s) as [|y ys] eqn:E; constructor.
  assert (Hy : In y (vowel_positions_from (i + 1) s)) by (rewrite E; left; reflexivity).
  apply SplitFacts.vp_bounds in Hy. lia.
Qed.

(** [names = [line.strip() for line in ... if line.strip()]] *)
Lemma blank_filter : forall lines,
  filter (fun l => truthy (strip l)) lines = [] <-> Forall (fun l => strip l = []) lines.
Proof.
  induction lines as [|l lines IH]; simpl; [split; constructor|].
  destruct (strip l) as [|z t] eqn:E; simpl.
  - rewrite IH. split; [intros H; constructor; assumption|intros H; inversion H; assumption].
  - split; [discriminate|intros H; inversion H; congruence].
Qed.

Lemma pool_empty_iff : forall sel names,
  fold_left (pool_step sel) names [] = [] <->
  Forall (fun raw => sel (split_name raw) = []) names.
Proof.
  intros sel names. split; [|apply pool_empty_of].
  assert (G : forall c, fold_left (pool_step sel) names c = [] ->
            c = [] /\ Forall (fun raw => sel (split_name raw) = []) names).
  { induction names as [|raw names IH]; intros c H; simpl in H; [split; [exact H|constructor]|].
    destruct (IH _ H) as [H1 H2]. unfold pool_step in H1.
    destruct (sel (split_name raw)) as [|z seg] eqn:E; simpl in H1.
    - split; [exact H1|constructor; assumption].
    - exfalso. exact (counter_incr_nonempty _ _ H1). }
  intros H. apply (G [] H).
Qed.

Lemma strip_pad : forall pre s suf,
  Forall (fun c => is_space c = true) pre -> Forall (fun c => is_space c = true) suf ->
  strip (pre ++ s ++ suf) = strip s.
Proof.
  intros pre s suf Hpre Hsuf.
  assert (E : strip (s ++ suf) = strip s).
  { clear Hpre. induction suf as [|c suf IH] using rev_ind.
    - rewrite app_nil_r. reflexivity.
    - apply Forall_app in Hsuf as [Hsuf Hc]. inversion Hc as [|? ? Hc' _]; subst.
      rewrite app_assoc, TextFacts.strip_app_space by exact Hc'. apply IH, Hsuf. }
  induction Hpre as [|c pre Hc _ IH]; [exact E|].
  unfold strip in *. simpl. rewrite Hc. exact IH.
Qed.

Lemma middle_strip : forall raw, split_name (strip raw) = split_name raw.
Proof. intros raw. unfold split_name. rewrite TextFacts.strip_idem. reflexivity. Qed.

End TallyFacts.

(** * What a session prints *)

Module SessionFacts.

Section WithSource.

Variable R : random_source.

(** A computation that only appends to stdout: started with some lines
    already printed, it behaves as started with none and prints after them. *)
Definition framed {A} (m : M (world R) A) : Prop :=
  forall st g o, m (mkWorld st g o) =
    let '(r, w) := m (mkWorld st g []) in (r, mkWorld (store w) (rnd w) (o ++ out w)).

Lemma framed_ret {A} (a : A) : framed (ret a).
Proof. intros st g o. unfold ret. simpl. rewrite app_nil_r. reflexivity. Qed.

Lemma framed_throw {A} e : framed (A := A) (throw e).
Proof. intros st g o. unfold throw. simpl. rewrite app_nil_r. reflexivity. Qed.

Lemma framed_bind {A B} (m : M (world R) A) (k : A -> M (world R) B) :
  framed m -> (forall a, framed (k a)) -> framed (bind m k).
Proof.
  intros Hm Hk st g o. unfold bind. rewrite Hm.
  destruct (m (mkWorld st g [])) as [[a|e] [st' g' o']]; simpl; [|reflexivity].
  rewrite (Hk a st' g' (o ++ o')), (Hk a st' g' o').
  destruct (k a (mkWorld st' g' [])) as [r w]. simpl. rewrite app_assoc. reflexivity.
Qed.

Lemma framed_print line : framed (print line).
Proof. intros st g o. reflexivity. Qed.

Lemma framed_random : framed (@random_ R).
Proof.
  intros st g o. unfold random_. simpl. destruct (random R g). simpl.
  rewrite app_nil_r. reflexivity.
Qed.

Lemma framed_read_counter r : framed (read_counter r).
Proof. intros st g o. unfold read_counter. simpl. rewrite app_nil_r. reflexivity. Qed.

Lemma framed_choices pop ws : framed (@choices R pop ws).
Proof.
  unfold choices. destruct (negb _); [apply framed_throw|].
  destruct (rev (accumulate 0 ws)) as [|total rest]; [apply framed_throw|].
  destruct (total <=? 0); [apply framed_throw|].
  apply framed_bind; [apply framed_random|intros; apply framed_ret].
Qed.

Lemma framed_weighted_choice r : framed (@weighted_choice R r).
Proof.
  unfold weighted_choice. apply framed_bind; [apply framed_read_counter|].
  intros c. apply framed_choices.
Qed.

Lemma framed_candidate refs : framed (@candidate R refs).
Proof.
  destruct refs as [[a b] c]. unfold candidate.
  apply framed_bind; [apply framed_weighted_choice|intros p].
  apply framed_bind; [apply framed_weighted_choice|intros m].
  apply framed_bind; [apply framed_weighted_choice|intros s'].
  apply framed_ret.
Qed.

Lemma framed_generate_name refs mn mx : framed (@generate_name R refs mn mx).
Proof.
  unfold generate_name. generalize 1000%nat. intros n. induction n as [|n IH]; simpl.
  { apply framed_throw. }
  apply framed_bind; [apply framed_candidate|intros name].
  destruct (in_bounds mn mx name); [apply framed_ret|exact IH].
Qed.

Lemma framed_finite_mode n k refs mn mx : framed (@finite_mode R n k refs mn mx).
Proof.
  revert k. induction n as [|n IH]; intros [|k]; simpl;
    [apply framed_ret|apply framed_ret|apply framed_print|].
  apply framed_bind; [apply framed_generate_name|intros name].
  apply framed_bind; [apply framed_print|intros _; apply IH].
Qed.

Lemma framed_infinite_mode n refs mn mx : framed (@infinite_mode R n refs mn mx).
Proof.
  induction n as [|n IH]; simpl; [apply framed_print|].
  apply framed_bind; [apply framed_generate_name|intros name].
  apply framed_bind; [apply framed_print|intros _; exact IH].
Qed.

(** [dump_counters] prints its header line, then one line per entry of
    [most_common()]. *)
Lemma dump_counters_lines : forall label r (w : world R),
  let c := deref (store w) r in
  dump_counters label r w =
    (inl tt, mkWorld (store w) (rnd w)
       (out w ++ ([10] ++ u "=== " ++ label ++ u " (" ++ str_of_Z (Z.of_nat (List.length c))
                   ++ u " unique | " ++ str_of_Z (fold_left Z.add (map snd c) 0)
                   ++ u " total) ===")
               :: map (fun pf => pad_left (fst pf) 15 ++ [32] ++ str_of_Z (snd pf))
                      (most_common c))).
Proof.
  intros label r w c. unfold dump_counters, bind, read_counter, print at 1.
  rewrite GenFacts.print_lines_eq. simpl. rewrite <- app_assoc. reflexivity.
Qed.

Lemma dump_counters_len : forall label r (w : world R),
  exists ls, dump_counters label r w = (inl tt, mkWorld (store w) (rnd w) (out w ++ ls)) /\
             List.length ls = S (List.length (deref (store w) r)).
Proof.
  intros label r w. pose proof (dump_counters_lines label r w) as E. cbv zeta in E.
  rewrite E. eexists. split; [reflexivity|]. simpl. f_equal.
  rewrite length_map. apply Permutation_length, TallyFacts.most_common_perm.
Qed.


End WithSource.

End SessionFacts.

(** * How [main] ends *)

Module MainSpec.

Import PoolFacts.

(** A property of the names [main] keeps, read on the lines of the file. *)
Lemma forall_names : forall (P : ustr -> Prop) lines,
  (forall l, strip l = [] -> P l) -> (forall l, P (strip l) <-> P l) ->
  (Forall P (map strip (filter (fun l => truthy (strip l)) lines)) <-> Forall P lines).
Proof.
  intros P lines Hblank Hstrip. induction lines as [|l lines IH]; simpl; [split; constructor|].
  destruct (truthy (strip l)) eqn:Et; simpl.
  - split; intros H; inversion H as [|? ? H1 H2]; subst;
      (constructor; [apply Hstrip; exact H1|apply IH, H2]).
  - assert (E : strip l = []) by (destruct (strip l); [reflexivity|discriminate]).
    rewrite IH. split; [intros H; constructor; [apply Hblank, E|exact H]|].
    intros H; inversion H; assumption.
Qed.

Lemma exists_names : forall lines,
  filter (fun l => truthy (strip l)) lines <> [] ->
  Exists (fun raw => strip raw <> []) (map strip (filter (fun l => truthy (strip l)) lines)) /\
  Exists (fun l => strip l <> []) lines.
Proof.
  intros lines H. destruct (filter (fun l => truthy (strip l)) lines) as [|l0 rest] eqn:E;
    [congruence|].
  assert (Hin : In l0 (filter (fun l => truthy (strip l)) lines)) by (rewrite E; left; reflexivity).
  apply filter_In in Hin as [Hin Ht].
  assert (Hne : strip l0 <> []) by (destruct (strip l0); [discriminate|congruence]).
  split.
  - simpl. constructor. rewrite TextFacts.strip_idem. exact Hne.
  - apply Exists_exists. exists l0. auto.
Qed.

(** With a name that is not blank, [build_weighted_pools] fails exactly
    when no name has a middle part, and only with the insufficient-data
    error. *)
Lemma build_fails_iff : forall names,
  Exists (fun raw => strip raw <> []) names ->
  (build_weighted_pools names = inr (ValueError insufficient_msg) <->
   Forall (fun raw => snd (fst (split_name raw)) = []) names).
Proof.
  intros names Hex.
  assert (Hp : fold_left (pool_step sel_prefix) names [] <> []).
  { apply pool_nonempty_of. eapply Exists_impl; [|exact Hex].
    intros raw Hraw. apply (SplitFacts.split_ends_nonempty raw Hraw). }
  assert (Hs : fold_left (pool_step sel_suffix) names [] <> []).
  { apply pool_nonempty_of. eapply Exists_impl; [|exact Hex].
    intros raw Hraw. apply (SplitFacts.split_ends_nonempty raw Hraw). }
  rewrite <- (TallyFacts.pool_empty_iff sel_middle names).
  unfold build_weighted_pools. rewrite MainFacts.build_loop_pools.
  apply MainFacts.truthy_nonempty in Hp, Hs. rewrite Hp, Hs. simpl.
  destruct (fold_left (pool_step sel_middle) names []); simpl; split; congruence.
Qed.

Lemma bind_inl {S A B} (m : M S A) (k : A -> M S B) st a st' :
  m st = (inl a, st') -> bind m k st = k a st'.
Proof. intros H. unfold bind. rewrite H. reflexivity. Qed.

Lemma session_not_exited : forall R (p : (unit + exn) * world R) msg o,
  match p with (inl _, w) => (Finished, out w) | (inr e, w) => (Raised e, out w) end <>
  (Exited msg, o).
Proof. intros R [[x|e] w] msg o; discriminate. Qed.

End MainSpec.

(** * Properties of the cleaner *)

Module CleanerFacts.

Import TextFacts.

(** The tests of the loop body on a trimmed line: kept when non-empty and
    free of ['.'] and ['…']. *)
Definition keep_line (line : ustr) : bool :=
  truthy line && negb (contains ELLIPSIS line || contains 46 line).

Lemma clean_loop_later : forall ls i,
  clean_loop (S i) ls = filter keep_line (map strip ls).
Proof.
  induction ls as [|l ls IH]; intros i; [reflexivity|]. simpl.
  rewrite !IH. unfold keep_line.
  destruct (truthy (strip l)); simpl; [|reflexivity].
  destruct (contains ELLIPSIS (strip l) || contains 46 (strip l)); reflexivity.
Qed.

Lemma clean_loop_first : forall lines,
  clean_loop 0 lines = filter keep_line (map strip (tl lines)).
Proof. intros [|l ls]; [reflexivity|]. apply clean_loop_later. Qed.

(** What a line written by the cleaner is. *)
Definition clean_line (l : ustr) : Prop :=
  strip l = l /\ keep_line l = true /\ no_newline l.

Lemma clean_loop_lines : forall text,
  Forall clean_line (clean_loop 0 (readlines_text text)).
Proof.
  intros text. rewrite clean_loop_first.
  pose proof (readlines_shape text) as H.
  assert (H' : Forall (fun l => exists l', no_newline l' /\ (l = l' ++ [10] \/ l = l'))
                      (tl (readlines_text text)))
    by (destruct (readlines_text text); [constructor|inversion H; assumption]).
  clear H. induction H' as [|l ls Hl _ IH]; [constructor|]. simpl.
  destruct (keep_line (strip l)) eqn:Hk; [|exact IH].
  constructor; [|exact IH].
  split; [apply strip_idem|]. split; [exact Hk|]. apply strip_line_no_newline, Hl.
Qed.

Lemma strip_written : forall l, clean_line l -> strip (l ++ [10]) = l.
Proof. intros l (H1 & _). rewrite strip_app_space by reflexivity. exact H1. Qed.

Lemma clean_lines_no_newline : forall cl, Forall clean_line cl -> Forall no_newline cl.
Proof. intros cl H. eapply Forall_impl; [|exact H]. intros l (_ & _ & H3). exact H3. Qed.

(** The cleaner, run on what it wrote, keeps every line but the first. *)
Lemma clean_written : forall cl,
  Forall clean_line cl -> clean_loop 0 (readlines_text (write_lines cl)) = tl cl.
Proof.
  intros cl H. rewrite readlines_written by (apply clean_lines_no_newline, H).
  rewrite clean_loop_first.
  destruct H as [|l cl Hl H]; [reflexivity|]. simpl.
  induction H as [|l' cl' Hl' _ IH]; [reflexivity|]. simpl.
  rewrite (strip_written l' Hl'). destruct Hl' as (_ & Hk & _). rewrite Hk, IH. reflexivity.
Qed.

(** The names the GUI reads from what the cleaner wrote. *)
Lemma read_names_written : forall cl,
  Forall clean_line cl -> read_names (write_lines cl) = cl.
Proof.
  intros cl H. unfold read_names.
  rewrite readlines_written by (apply clean_lines_no_newline, H).
  induction H as [|l cl Hl _ IH]; [reflexivity|]. simpl.
  rewrite (strip_written l Hl).
  assert (Ht : truthy l = true).
  { destruct Hl as (_ & Hk & _). unfold keep_line in Hk.
    destruct (truthy l); [reflexivity|discriminate]. }
  rewrite Ht. simpl. rewrite (strip_written l Hl), IH. reflexivity.
Qed.

End CleanerFacts.

(** * The splitting heuristic *)

(** C1 (counterexample): [split_name] does not follow the syllable-greedy
    segmentation.  "marco" has the syllables "ma" and "rco", which the
    syllable rule turns into ("ma", "", "rco"); [split_name] cuts after the
    first vowel and before the last one and returns ("ma", "rc", "o"). *)
Lemma split_name_not_syllabic :
  syllables (u "marco") = [u "ma"; u "rco"] /\
  segment_by_syllables (u "marco") = (u "ma", [], u "rco") /\
  split_name (u "marco") = (u "ma", u "rc", u "o").
Proof. split; [|split]; reflexivity. Qed.

(** C1 (amended): [split_name] works on the trimmed name and has four
    cases.  A blank name gives three empty parts.  With two or more vowels
    the prefix ends at the first vowel (inclusive), the suffix starts at
    the last vowel, and the middle is what lies between.  With exactly one
    vowel and at least three characters the prefix and the suffix are the
    first and the last character and the middle is the rest.  Otherwise (no
    vowel, or one vowel in one or two characters) the prefix is the first
    [p] and the suffix the last [q] characters, with [1 <= p <= max 1
    (round (0.3 n))] and [1 <= q <= max 1 (round (0.2 n))], and the middle
    is what lies strictly between them ([p + q < n]) or empty ([p = q = 1]). *)
Theorem split_name_cases : forall s,
  (strip s = [] -> split_name s = ([], [], [])) /\
  ((2 <= SplitFacts.count_vowels (strip s))%nat ->
   exists c1 v1 m v2 c2,
     strip s = c1 ++ v1 :: m ++ v2 :: c2 /\
     SplitFacts.no_vowel c1 /\ SplitFacts.no_vowel c2 /\
     is_vowel v1 = true /\ is_vowel v2 = true /\
     split_name s = (c1 ++ [v1], m, v2 :: c2)) /\
  (SplitFacts.count_vowels (strip s) = 1%nat -> (3 <= List.length (strip s))%nat ->
   exists a m b, strip s = a :: m ++ [b] /\ split_name s = ([a], m, [b])) /\
  (strip s <> [] ->
   (SplitFacts.count_vowels (strip s) = 0%nat \/
    (SplitFacts.count_vowels (strip s) = 1%nat /\ (List.length (strip s) <= 2)%nat)) ->
   exists p q : nat,
     let n := List.length (strip s) in
     (1 <= p)%nat /\ (1 <= q)%nat /\ ((p + q < n)%nat \/ (p = 1 /\ q = 1)%nat) /\
     Z.of_nat p <= Z.max 1 (py_round (Z.of_nat n * 3) 10) /\
     Z.of_nat q <= Z.max 1 (py_round (Z.of_nat n * 2) 10) /\
     split_name s =
       (firstn p (strip s),
        (if (p + q <? n)%nat then firstn (n - q - p) (skipn p (strip s)) else []),
        skipn (n - q) (strip s))).
Proof.
  intros s. split; [apply SplitFacts.split_empty|].
  split; [apply SplitFacts.split_two_vowels|].
  split; [apply SplitFacts.split_one_vowel|apply SplitFacts.split_fallback].
Qed.

(** C2 (counterexample): for the one-character name "a" the prefix and
    the suffix are both "a", so the parts hold two characters where the
    name has one. *)
Lemma split_single_char_duplicated :
  split_name (u "a") = (u "a", [], u "a") /\
  (List.length (u "a") + List.length (@nil Z) + List.length (u "a")
   > List.length (u "a"))%nat.
Proof. split; [reflexivity|simpl; lia]. Qed.

(** C2 (amended): unless the trimmed name has exactly one character, the
    prefix, middle and suffix concatenated in this order give back the
    trimmed name, so they keep its order and hold at most as many
    characters as the original string; a one-character name [c] gives
    ([c], "", [c]). *)
Theorem split_name_order : forall s,
  let '(prefix, middle, suffix) := split_name s in
  ((List.length (strip s) <> 1)%nat ->
   prefix ++ middle ++ suffix = strip s /\
   (List.length (prefix ++ middle ++ suffix) <= List.length s)%nat) /\
  (forall c, strip s = [c] -> (prefix, middle, suffix) = ([c], [], [c])).
Proof.
  intros s. pose proof (SplitFacts.split_concat s) as H.
  destruct (split_name s) as [[prefix middle] suffix].
  destruct H as [H1 H2]. split; [|exact H2].
  intros Hn. specialize (H1 Hn). split; [exact H1|].
  rewrite H1. apply SplitFacts.strip_length.
Qed.

(** C3 (counterexample): "bra" is a single syllable, yet [split_name]
    gives it the middle "r", so the pools built from it are all non-empty
    and [build_weighted_pools] succeeds. *)
Lemma single_syllable_corpus_builds :
  syllables (u "bra") = [u "bra"] /\
  build_weighted_pools [u "bra"] = inl ([(u "b", 1)], [(u "r", 1)], [(u "a", 1)]).
Proof. split; reflexivity. Qed.

(** C3 (amended): when every name has at most two characters after
    trimming, every middle part is empty and [build_weighted_pools] fails
    with the insufficient-data error. *)
Theorem short_corpus_insufficient : forall names,
  Forall (fun s => (List.length (strip s) <= 2)%nat) names ->
  build_weighted_pools names = inr (ValueError insufficient_msg).
Proof.
  intros names H. unfold build_weighted_pools.
  rewrite MainFacts.build_loop_pools.
  rewrite (PoolFacts.pool_empty_of PoolFacts.sel_middle names).
  - simpl. rewrite andb_false_r. reflexivity.
  - eapply Forall_impl; [|exact H]. intros s Hs.
    apply SplitFacts.split_short_middle, Hs.
Qed.

(** C8: the empty string, and any blank string, splits into three empty
    parts. *)
Theorem split_name_empty :
  split_name [] = ([], [], []) /\
  forall s, strip s = [] -> split_name s = ([], [], []).
Proof. split; [reflexivity|apply SplitFacts.split_empty]. Qed.

(** * Finite mode of [main] *)

(** C6 (amended): in finite mode ([count = N > 0]), unless [main] exits
    with an error message before printing anything, the pools are built
    and stdout is the debug dump (with [--debug] a header line and one line
    per key for each of the three pools, without it nothing), then names
    that are all within the bounds, then possibly the goodbye line.
    Either exactly [N] names are printed and [main] returns; or Ctrl-C
    arrives after [k < N] names, the goodbye line is printed after them and
    [main] returns; or fewer than [N] (and fewer than [k]) names are
    printed and the bounds [RuntimeError] escapes [main]. *)
Theorem finite_mode_batch : forall (R : random_source) (a : args) lines k (g : rng R),
  0 < count a ->
  let names := map strip (filter (fun l => truthy (strip l)) lines) in
  let N := Z.to_nat (count a) in
  let '(res, o) := main R a lines k g in
  match res with
  | Exited _ => o = []
  | _ =>
      exists pc mc sc dump nms tail,
        build_weighted_pools names = inl (pc, mc, sc) /\
        o = dump ++ nms ++ tail /\
        List.length dump =
          (if debug a then 3 + List.length pc + List.length mc + List.length sc else 0)%nat /\
        Forall (fun nm => in_bounds (min_len a) (max_len a) nm = true) nms /\
        match res with
        | Finished =>
            (tail = [] /\ List.length nms = N /\ (N <= k)%nat) \/
            (tail = [goodbye] /\ List.length nms = k /\ (k < N)%nat)
        | Raised e =>
            tail = [] /\ e = RuntimeError bounds_msg /\
            (List.length nms < N)%nat /\ (List.length nms < k)%nat
        | Exited _ => False
        end
  end.
Proof.
  intros R a lines k g Hc names N. unfold main.
  set (g' := match seed a with Some s => seed_state R s | None => g end).
  fold names.
  destruct (negb (truthy names)); [reflexivity|].
  destruct (MainFacts.build_cases names) as [(ps & Eb & _)|Eb]; rewrite Eb; [|reflexivity].
  pose proof (MainFacts.build_pools_ok names ps Eb) as Hok.
  destruct ps as [[pc mc] sc].
  replace (0 <? count a) with true by (symmetry; apply Z.ltb_lt; exact Hc).
  match goal with |- context [bind (if debug a then ?d else ret tt) _] =>
    set (pre := if debug a then d else ret tt) end.
  assert (D : exists dump, pre (mkWorld (pc, mc, sc) g' []) =
                             (inl tt, mkWorld (pc, mc, sc) g' dump) /\
                           List.length dump =
                             (if debug a then 3 + List.length pc + List.length mc
                                              + List.length sc else 0)%nat).
  { subst pre. destruct (debug a).
    - destruct (SessionFacts.dump_counters_len R (u "Prefix") RefP
                  (mkWorld (pc, mc, sc) g' [])) as (l1 & E1 & L1).
      destruct (SessionFacts.dump_counters_len R (u "Middle") RefM
                  (mkWorld (pc, mc, sc) g' l1)) as (l2 & E2 & L2).
      destruct (SessionFacts.dump_counters_len R (u "Suffix") RefS
                  (mkWorld (pc, mc, sc) g' (l1 ++ l2))) as (l3 & E3 & L3).
      simpl in E1, E2, E3, L1, L2, L3.
      unfold bind. rewrite E1. simpl. rewrite E2. simpl. rewrite E3. simpl.
      eexists. split; [reflexivity|]. rewrite !length_app. lia.
    - exists []. split; reflexivity. }
  destruct D as (dump & Ed & Hd).
  cbv zeta. unfold bind at 1. rewrite Ed.
  pose proof (GenFacts.finite_mode_spec R N k (RefP, RefM, RefS)
                (min_len a) (max_len a) (mkWorld (pc, mc, sc) g' dump) Hok) as H.
  fold N.
  destruct (finite_mode N k (RefP, RefM, RefS) (min_len a) (max_len a)
              (mkWorld (pc, mc, sc) g' dump)) as [[x|e] w'].
  - destruct H as (_ & nms & Hall & Hr). simpl in Hr.
    destruct Hr as [(Ho & Hl & HN)|(Ho & Hl & HK)].
    + exists pc, mc, sc, dump, nms, []. rewrite app_nil_r.
      repeat split; auto.
    + exists pc, mc, sc, dump, nms, [goodbye]. repeat split; auto.
  - destruct H as (_ & nms & Hall & He & Ho & Hl1 & Hl2). simpl in Ho.
    exists pc, mc, sc, dump, nms, []. rewrite app_nil_r. repeat split; auto.
Qed.

(** C6 (counterexample): with the corpus "abc", "abbc", [-n 2] and the
    bounds [3, 3], a random stream whose second draw is 0 and whose other
    draws are 1/2 makes the first name "abc" and every later candidate
    "abbc": with no Ctrl-C before the batch ends, one name is printed,
    then the bounds [RuntimeError] ends the batch. *)
Lemma finite_mode_partial_batch :
  main dyadic_source (mkArgs 2 3 3 None false) [u "abc"; u "abbc"] 2 stream_one_short
  = (Raised (RuntimeError bounds_msg), [u "abc"]).
Proof. vm_compute. reflexivity. Qed.

(** * Generation *)

(** C4: when the three pools are non-empty with positive counts,
    [generate_name] draws at most 1000 candidates, each the concatenation
    of a sampled prefix, middle and suffix, and returns the first whose
    length is within [[min_len, max_len]]; if none of the 1000 is, it
    raises the bounds [RuntimeError]. *)
Theorem generate_name_bounded : forall (R : random_source) refs mn mx (w : world R),
  GenFacts.pools_ok (store w) refs ->
  match generate_name refs mn mx w with
  | (inl name, w') =>
      exists k, (k < 1000)%nat /\
        (forall j, (j < k)%nat ->
           exists nm, GenFacts.attempt_name R refs j w = inl nm /\
                      in_bounds mn mx nm = false) /\
        GenFacts.attempt_name R refs k w = inl name /\ in_bounds mn mx name = true /\
        w' = GenFacts.attempts_from R refs (S k) w
  | (inr e, w') =>
      e = RuntimeError bounds_msg /\ w' = GenFacts.attempts_from R refs 1000 w /\
      (forall j, (j < 1000)%nat ->
         exists nm, GenFacts.attempt_name R refs j w = inl nm /\
                    in_bounds mn mx nm = false)
  end.
Proof. intros R refs mn mx w Hok. apply (GenFacts.generate_loop_spec R 1000), Hok. Qed.

(** C9: [generate_name] and [dump_counters] leave the three Counter
    objects as they are. *)
Theorem pools_unchanged : forall (R : random_source) refs mn mx label r (w : world R),
  store (snd (generate_name refs mn mx w)) = store w /\
  store (snd (dump_counters label r w)) = store w.
Proof.
  intros R refs mn mx label r w. split.
  - apply GenFacts.generate_name_keeps_store.
  - apply GenFacts.dump_counters_keeps_store.
Qed.

(** C7: once [random.seed(s)] has run, [main] no longer depends on the
    state the random module had before: two runs with the same seed, the
    same arguments, the same chapter lines (and the same interruption point
    in infinite mode) print the same lines and end the same way. *)
Theorem seeded_main_deterministic : forall (R : random_source) a lines k (g1 g2 : rng R) s,
  seed a = Some s -> main R a lines k g1 = main R a lines k g2.
Proof. intros R a lines k g1 g2 s Hs. unfold main. rewrite Hs. reflexivity. Qed.

(** * Pool building *)

(** C5: each pool counts, for every non-empty segment, the names whose
    part is that segment (empty parts are never inserted, so every key is
    non-empty with a count of at least 1), and [build_weighted_pools]
    raises the insufficient-data error exactly when one of the three pools
    is empty; otherwise it returns them. *)
Theorem build_pools_spec : forall names,
  let '(pc, mc, sc) := build_loop names in
  PoolFacts.well_formed pc /\ PoolFacts.well_formed mc /\ PoolFacts.well_formed sc /\
  (forall k, k <> [] ->
     PoolFacts.counter_get k pc = Z.of_nat (List.length
       (filter (fun raw => PoolFacts.seg_eqb (fst (fst (split_name raw))) k) names)) /\
     PoolFacts.counter_get k mc = Z.of_nat (List.length
       (filter (fun raw => PoolFacts.seg_eqb (snd (fst (split_name raw))) k) names)) /\
     PoolFacts.counter_get k sc = Z.of_nat (List.length
       (filter (fun raw => PoolFacts.seg_eqb (snd (split_name raw)) k) names))) /\
  (build_weighted_pools names = inr (ValueError insufficient_msg) <->
   pc = [] \/ mc = [] \/ sc = []) /\
  (forall ps, build_weighted_pools names = inl ps -> ps = (pc, mc, sc)).
Proof.
  intros names. pose proof (MainFacts.build_wf names) as Hwf.
  unfold build_weighted_pools. rewrite MainFacts.build_loop_pools in *.
  destruct Hwf as (H1 & H2 & H3).
  split; [exact H1|]. split; [exact H2|]. split; [exact H3|].
  split.
  { intros k Hk.
    rewrite !PoolFacts.pool_count by exact Hk. simpl PoolFacts.counter_get. auto. }
  clear H1 H2 H3.
  generalize (fold_left (PoolFacts.pool_step PoolFacts.sel_prefix) names [])
             (fold_left (PoolFacts.pool_step PoolFacts.sel_middle) names [])
             (fold_left (PoolFacts.pool_step PoolFacts.sel_suffix) names []).
  intros [|x pc] [|y mc] [|z sc]; simpl;
    (split; [split; intros; intuition congruence|intros ps E; congruence]).
Qed.

(** C10: a name that is not blank has a non-empty prefix and a non-empty
    suffix; so when a corpus has a name that is not blank, the prefix and
    suffix pools are non-empty and [build_weighted_pools] fails exactly
    when the middle pool is empty. *)
Theorem ends_nonempty : forall s names,
  (strip s <> [] -> fst (fst (split_name s)) <> [] /\ snd (split_name s) <> []) /\
  (Exists (fun raw => strip raw <> []) names ->
   let '(pc, mc, sc) := build_loop names in
   pc <> [] /\ sc <> [] /\
   (build_weighted_pools names = inr (ValueError insufficient_msg) <-> mc = [])).
Proof.
  intros s names. split; [apply SplitFacts.split_ends_nonempty|].
  intros Hex.
  assert (Hp : fold_left (PoolFacts.pool_step PoolFacts.sel_prefix) names [] <> []).
  { apply PoolFacts.pool_nonempty_of. eapply Exists_impl; [|exact Hex].
    intros raw Hraw. apply (SplitFacts.split_ends_nonempty raw Hraw). }
  assert (Hs : fold_left (PoolFacts.pool_step PoolFacts.sel_suffix) names [] <> []).
  { apply PoolFacts.pool_nonempty_of. eapply Exists_impl; [|exact Hex].
    intros raw Hraw. apply (SplitFacts.split_ends_nonempty raw Hraw). }
  unfold build_weighted_pools. rewrite MainFacts.build_loop_pools.
  split; [exact Hp|]. split; [exact Hs|].
  apply MainFacts.truthy_nonempty in Hp, Hs. rewrite Hp, Hs. simpl.
  destruct (fold_left (PoolFacts.pool_step PoolFacts.sel_middle) names []); simpl;
    split; congruence.
Qed.

(** * Instances of the hypotheses *)

(** [short_corpus_insufficient] on the corpus " ab ", "x". *)
Lemma short_corpus_insufficient_witness :
  Forall (fun s => (List.length (strip s) <= 2)%nat) [u " ab "; u "x"] /\
  build_weighted_pools [u " ab "; u "x"] = inr (ValueError insufficient_msg).
Proof.
  assert (H : Forall (fun s => (List.length (strip s) <= 2)%nat) [u " ab "; u "x"]).
  { repeat (apply Forall_cons; [vm_compute; lia|]). apply Forall_nil. }
  split; [exact H|]. apply short_corpus_insufficient. exact H.
Defined.

(** [generate_name_bounded] on the pools of the corpus "abc", "abbc",
    with the bounds [3, 3]. *)
Lemma generate_name_bounded_witness :
  let w0 := @mkWorld dyadic_source
              ([(u "a", 2)], [(u "b", 1); (u "bb", 1)], [(u "c", 2)])
              stream_one_short [] in
  GenFacts.pools_ok (store w0) (RefP, RefM, RefS) /\
  match generate_name (RefP, RefM, RefS) 3 3 w0 with
  | (inl name, w') =>
      exists k, (k < 1000)%nat /\
        (forall j, (j < k)%nat ->
           exists nm, GenFacts.attempt_name dyadic_source (RefP, RefM, RefS) j w0 = inl nm /\
                      in_bounds 3 3 nm = false) /\
        GenFacts.attempt_name dyadic_source (RefP, RefM, RefS) k w0 = inl name /\
        in_bounds 3 3 name = true /\
        w' = GenFacts.attempts_from dyadic_source (RefP, RefM, RefS) (S k) w0
  | (inr e, w') =>
      e = RuntimeError bounds_msg /\
      w' = GenFacts.attempts_from dyadic_source (RefP, RefM, RefS) 1000 w0 /\
      (forall j, (j < 1000)%nat ->
         exists nm, GenFacts.attempt_name dyadic_source (RefP, RefM, RefS) j w0 = inl nm /\
                    in_bounds 3 3 nm = false)
  end.
Proof.
  intros w0.
  assert (H : GenFacts.pools_ok (store w0) (RefP, RefM, RefS)).
  { apply (MainFacts.build_pools_ok [u "abc"; u "abbc"]). vm_compute. reflexivity. }
  split; [exact H|]. apply (generate_name_bounded dyadic_source). exact H.
Defined.

(** [seeded_main_deterministic] with the seed 7 and two different states
    of the random module. *)
Lemma seeded_main_deterministic_witness :
  seed (mkArgs 2 2 20 (Some 7) false) = Some 7 /\
  main dyadic_source (mkArgs 2 2 20 (Some 7) false) [u "marco"; u "anna"] 0
    stream_one_short =
  main dyadic_source (mkArgs 2 2 20 (Some 7) false) [u "marco"; u "anna"] 0
    (fun _ => 0, O).
Proof.
  split; [reflexivity|].
  apply (seeded_main_deterministic dyadic_source _ _ _ _ _ 7). reflexivity.
Defined.

(** [finite_mode_batch] on the run of [finite_mode_partial_batch]. *)
Lemma finite_mode_batch_witness :
  0 < count (mkArgs 2 3 3 None false) /\
  let names := map strip (filter (fun l => truthy (strip l)) [u "abc"; u "abbc"]) in
  let N := Z.to_nat (count (mkArgs 2 3 3 None false)) in
  let '(res, o) :=
    main dyadic_source (mkArgs 2 3 3 None false) [u "abc"; u "abbc"] 2 stream_one_short in
  match res with
  | Exited _ => o = []
  | _ =>
      exists pc mc sc dump nms tail,
        build_weighted_pools names = inl (pc, mc, sc) /\
        o = dump ++ nms ++ tail /\
        List.length dump =
          (if debug (mkArgs 2 3 3 None false)
           then 3 + List.length pc + List.length mc + List.length sc else 0)%nat /\
        Forall (fun nm => in_bounds (min_len (mkArgs 2 3 3 None false))
                            (max_len (mkArgs 2 3 3 None false)) nm = true) nms /\
        match res with
        | Finished =>
            (tail = [] /\ List.length nms = N /\ (N <= 2)%nat) \/
            (tail = [goodbye] /\ List.length nms = 2%nat /\ (2 < N)%nat)
        | Raised e =>
            tail = [] /\ e = RuntimeError bounds_msg /\
            (List.length nms < N)%nat /\ (List.length nms < 2)%nat
        | Exited _ => False
        end
  end.
Proof.
  split; [reflexivity|].
  exact (finite_mode_batch dyadic_source (mkArgs 2 3 3 None false) [u "abc"; u "abbc"] 2
           stream_one_short eq_refl).
Defined.

(** * Further properties of the program *)

(** ** Sampling ([weighted_choice], [random.choices]) *)

(** [weighted_choice] draws one [random()] and returns the key whose
    interval of cumulative counts contains [x = floor(random() * total)],
    [total] being the last cumulative count (the sum of the counts): the
    counts of the keys before it add up to at most [x], and with its own
    count they exceed [x].  The pools and stdout are unchanged. *)
Theorem weighted_choice_select : forall (R : random_source) r (w : world R) d g,
  GenFacts.pool_ok (deref (store w) r) -> random R (rnd w) = (d, g) ->
  let c := deref (store w) r in
  let cum := accumulate 0 (map snd c) in
  let total := nth (List.length c - 1) cum 0 in
  floor_scaled R d total < total ->
  exists i, (i < List.length c)%nat /\
    weighted_choice r w = (inl (nth i (map fst c) []), mkWorld (store w) g (out w)) /\
    (forall j, (j < i)%nat -> nth j cum 0 <= floor_scaled R d total) /\
    floor_scaled R d total < nth i cum 0.
Proof.
  intros R r w d g Hok Hr c cum total Hx.
  destruct (SampleFacts.choices_select R c w d g Hok Hr Hx) as (i & Hi & Hsel & Hbefore & Hat).
  exists i. split; [exact Hi|]. split; [|split; assumption].
  destruct (SampleFacts.weighted_choice_member R r w Hok) as (nm & E & _).
  rewrite E. unfold weighted_choice, bind, read_counter in E. cbv beta iota in E.
  fold c in E. rewrite E in Hsel. simpl in Hsel. injection Hsel as ->.
  rewrite Hr. reflexivity.
Qed.

(** On an empty Counter, [weighted_choice] raises [IndexError] (from
    [cum_weights[-1]] in [random.choices]) before drawing any random
    number: the state of the random module is unchanged. *)
Theorem weighted_choice_empty : forall (R : random_source) r (w : world R),
  deref (store w) r = [] ->
  weighted_choice r w = (inr (IndexError "list index out of range"), w).
Proof.
  intros R r w H. unfold weighted_choice, bind, read_counter, choices. rewrite H.
  reflexivity.
Qed.

(** ** Generation *)

(** Every name [generate_name] returns from the pools built from a corpus
    is the prefix part of a name of the corpus, followed by the middle part
    of a name of the corpus and by the suffix part of a name of the corpus,
    and its length is within the bounds. *)
Theorem generated_name_recombines : forall (R : random_source) names mn mx (w : world R) name,
  build_weighted_pools names = inl (store w) ->
  fst (generate_name (RefP, RefM, RefS) mn mx w) = inl name ->
  exists r1 r2 r3, In r1 names /\ In r2 names /\ In r3 names /\
    name = fst (fst (split_name r1)) ++ snd (fst (split_name r2)) ++ snd (split_name r3) /\
    in_bounds mn mx name = true.
Proof.
  intros R names mn mx w name Hb Hn.
  destruct (RecombFacts.generate_name_parts R RefP RefM RefS mn mx w name
              (MainFacts.build_pools_ok names (store w) Hb) Hn)
    as (p & m & s & -> & Hp & Hm & Hs & Hin).
  destruct (RecombFacts.built_keys names (store w) p Hb) as [H1 _].
  destruct (RecombFacts.built_keys names (store w) m Hb) as [_ [H2 _]].
  destruct (RecombFacts.built_keys names (store w) s Hb) as [_ [_ H3]].
  destruct (H1 Hp) as (r1 & Hr1 & <-). destruct (H2 Hm) as (r2 & Hr2 & <-).
  destruct (H3 Hs) as (r3 & Hr3 & <-).
  exists r1, r2, r3. auto.
Qed.

(** ** The GUI's [generate] *)

(** [generate] either replaces the list of generated names with [COUNT]
    (20) names of 2 to 20 characters and shows no dialog, leaving the
    chapter list and its selection as they were, or shows one dialog and
    leaves every widget as it was.  The dialog is the no-selection warning,
    or an error box caused by the chapter file, by the insufficient-data
    [ValueError], or by the length-bounds [RuntimeError]. *)
Theorem gui_generate_outcome : forall (R : random_source) st files (g : rng R),
  let '(dlg, st', _) := generate R st files g in
  match dlg with
  | None =>
      chapter_box st' = chapter_box st /\ selection st' = selection st /\
      List.length (names_box st') = COUNT /\
      Forall (fun nm => in_bounds 2 20 nm = true) (names_box st')
  | Some d =>
      st' = st /\
      (d = ShowWarning "No chapter selected" "Please select a chapter file first." \/
       d = ShowError "Error" FileError \/
       d = ShowError "Error" (GenError (ValueError insufficient_msg)) \/
       d = ShowError "Error" (GenError (RuntimeError bounds_msg)))
  end.
Proof.
  intros R st files g. unfold generate.
  destruct (selected_chapter st) as [chapter|]; [|auto].
  destruct (negb (truthy chapter)); [auto|].
  destruct (files chapter) as [|text|]; [auto 6| |auto 6].
  destruct (MainFacts.build_cases (read_names text)) as [(ps & E & _)|E]; rewrite E;
    [|auto 6].
  pose proof (SampleFacts.gen_list_spec R COUNT (RefP, RefM, RefS) 2 20 (mkWorld ps g [])
                (MainFacts.build_pools_ok _ _ E)) as H.
  destruct (gen_list COUNT (RefP, RefM, RefS) 2 20 (mkWorld ps g [])) as [[names|e] w].
  - destruct H as (Hl & Hall & _). simpl. auto.
  - destruct H as [-> _]. auto 6.
Qed.

(** [generate] shows the no-selection warning exactly when no chapter is
    selected or the selected entry is the empty string. *)
Theorem gui_generate_warning : forall (R : random_source) st files (g : rng R),
  fst (fst (generate R st files g)) =
    Some (ShowWarning "No chapter selected" "Please select a chapter file first.") <->
  match selected_chapter st with None => True | Some chapter => chapter = [] end.
Proof.
  intros R st files g. unfold generate.
  destruct (selected_chapter st) as [chapter|]; [|simpl; tauto].
  destruct chapter as [|z chapter]; [simpl; tauto|]. simpl negb. cbv iota.
  split; [|discriminate].
  destruct (files (z :: chapter)) as [|text|]; try discriminate.
  destruct (build_weighted_pools (read_names text)) as [ps|e]; try discriminate.
  destruct (gen_list COUNT (RefP, RefM, RefS) 2 20 (mkWorld ps g [])) as [[names|e] w];
    discriminate.
Qed.

(** When [generate] succeeds, the selected chapter file could be read, and
    each displayed name is the prefix part of a name read from it, followed
    by the middle part of such a name and the suffix part of such a name. *)
Theorem gui_names_from_chapter : forall (R : random_source) st files (g : rng R) st' g',
  generate R st files g = (None, st', g') ->
  exists chapter text, selected_chapter st = Some chapter /\ files chapter = Text text /\
    Forall (fun name => exists r1 r2 r3,
      In r1 (read_names text) /\ In r2 (read_names text) /\ In r3 (read_names text) /\
      name = fst (fst (split_name r1)) ++ snd (fst (split_name r2)) ++ snd (split_name r3))
      (names_box st').
Proof.
  intros R st files g st' g' H. unfold generate in H.
  destruct (selected_chapter st) as [chapter|] eqn:Es; [|discriminate].
  destruct (negb (truthy chapter)); [discriminate|].
  destruct (files chapter) as [|text|] eqn:Ef; try discriminate.
  destruct (build_weighted_pools (read_names text)) as [ps|e] eqn:Eb; [|discriminate].
  pose proof (RecombFacts.gen_list_parts R COUNT RefP RefM RefS 2 20 (mkWorld ps g [])) as Hp.
  destruct (gen_list COUNT (RefP, RefM, RefS) 2 20 (mkWorld ps g [])) as [[names|e] w];
    [|discriminate].
  injection H as <- _. simpl.
  specialize (Hp names (MainFacts.build_pools_ok _ _ Eb) eq_refl).
  exists chapter, text. split; [reflexivity|]. split; [exact Ef|].
  eapply Forall_impl; [|exact Hp]. simpl.
  intros name (p & m & s & -> & Hp1 & Hm1 & Hs1 & _).
  destruct (RecombFacts.built_keys _ ps p Eb) as [H1 _].
  destruct (RecombFacts.built_keys _ ps m Eb) as [_ [H2 _]].
  destruct (RecombFacts.built_keys _ ps s Eb) as [_ [_ H3]].
  destruct (H1 Hp1) as (r1 & Hr1 & <-). destruct (H2 Hm1) as (r2 & Hr2 & <-).
  destruct (H3 Hs1) as (r3 & Hr3 & <-).
  exists r1, r2, r3. auto.
Qed.

(** ** The splitting heuristic *)

(** [vowel_positions(name)] lists, in increasing order, exactly the
    indices of [name] that hold a character of [VOWELS]. *)
Theorem vowel_positions_spec : forall name,
  (forall i, In i (vowel_positions name) <->
     0 <= i < Z.of_nat (List.length name) /\ is_vowel (nth (Z.to_nat i) name 0) = true) /\
  Sorted Z.lt (vowel_positions name).
Proof.
  intros name. split.
  - intros i. unfold vowel_positions. rewrite TallyFacts.vpf_spec, Z.sub_0_r, Z.add_0_l.
    reflexivity.
  - apply TallyFacts.vpf_sorted.
Qed.

(** Whitespace around a name does not change its split: [split_name]
    gives the same three parts for the name with whitespace added at
    either end. *)
Theorem split_name_padding : forall pre s suf,
  Forall (fun c => is_space c = true) pre -> Forall (fun c => is_space c = true) suf ->
  split_name (pre ++ s ++ suf) = split_name s.
Proof.
  intros pre s suf Hpre Hsuf.
  rewrite <- (TallyFacts.middle_strip s), <- (TallyFacts.middle_strip (pre ++ s ++ suf)).
  rewrite TallyFacts.strip_pad by assumption. reflexivity.
Qed.

(** ** Pool building and the debug dump *)

(** The counts of the prefix pool add up to the number of names that are
    not blank, and so do those of the suffix pool; the counts of the middle
    pool add up to the number of names whose middle part is not empty.
    These are the totals the debug dump prints. *)
Theorem pool_totals : forall names,
  let '(pc, mc, sc) := build_loop names in
  fold_left Z.add (map snd pc) 0 =
    Z.of_nat (List.length (filter (fun raw => truthy (strip raw)) names)) /\
  fold_left Z.add (map snd sc) 0 =
    Z.of_nat (List.length (filter (fun raw => truthy (strip raw)) names)) /\
  fold_left Z.add (map snd mc) 0 =
    Z.of_nat (List.length (filter (fun raw => truthy (snd (fst (split_name raw)))) names)).
Proof.
  intros names. rewrite MainFacts.build_loop_pools.
  pose proof (TallyFacts.total_pool PoolFacts.sel_prefix names []) as H1.
  pose proof (TallyFacts.total_pool PoolFacts.sel_middle names []) as H2.
  pose proof (TallyFacts.total_pool PoolFacts.sel_suffix names []) as H3.
  unfold TallyFacts.total in H1, H2, H3. simpl in H1, H2, H3.
  rewrite H1, H2, H3.
  rewrite (filter_ext _ _ TallyFacts.prefix_truthy),
          (filter_ext _ _ TallyFacts.suffix_truthy).
  split; [|split]; reflexivity.
Qed.

(** [dump_counters(label, counter)] prints the header line with the
    number of keys and the sum of the counts, then one line per entry of
    [most_common()]: every entry of the Counter once, by descending count,
    entries with the same count in the order they have in the Counter.
    The pools and the random state are unchanged. *)
Theorem dump_counters_output : forall (R : random_source) label r (w : world R),
  let c := deref (store w) r in
  dump_counters label r w =
    (inl tt, mkWorld (store w) (rnd w)
       (out w ++ ([10] ++ u "=== " ++ label ++ u " (" ++ str_of_Z (Z.of_nat (List.length c))
                   ++ u " unique | " ++ str_of_Z (fold_left Z.add (map snd c) 0)
                   ++ u " total) ===")
               :: map (fun pf => pad_left (fst pf) 15 ++ [32] ++ str_of_Z (snd pf))
                      (most_common c))) /\
  Permutation (most_common c) c /\
  Sorted (fun x y => snd y <= snd x) (most_common c) /\
  (forall v, filter (fun e => snd e =? v) (most_common c) = filter (fun e => snd e =? v) c).
Proof.
  intros R label r w c. split; [apply SessionFacts.dump_counters_lines|].
  split; [apply TallyFacts.most_common_perm|].
  split; [apply TallyFacts.most_common_sorted|].
  intros v. apply TallyFacts.most_common_stable.
Qed.

(** ** How [main] ends *)

(** [main] exits with "Error: chapter file contains no names." and prints
    nothing exactly when every line of the chapter file is blank. *)
Theorem main_no_names : forall (R : random_source) a lines k (g : rng R),
  main R a lines k g = (Exited "Error: chapter file contains no names.", []) <->
  Forall (fun l => strip l = []) lines.
Proof.
  intros R a lines k g. unfold main.
  rewrite <- TallyFacts.blank_filter.
  destruct (filter (fun l => truthy (strip l)) lines) as [|l0 rest]; simpl.
  { split; reflexivity. }
  split; [|discriminate].
  destruct (MainFacts.build_cases (strip l0 :: map strip rest)) as [(ps & E & _)|E];
    rewrite E; [|discriminate].
  intros H. exfalso. cbv zeta in H. exact (MainSpec.session_not_exited _ _ _ _ H).
Qed.

(** [main] exits with the insufficient-data error and prints nothing, even
    with [--debug], exactly when the chapter file has a line that is not
    blank and no line has a non-empty middle part. *)
Theorem main_insufficient : forall (R : random_source) a lines k (g : rng R),
  main R a lines k g = (Exited (String.append "Error: " insufficient_msg), []) <->
  Exists (fun l => strip l <> []) lines /\
  Forall (fun l => snd (fst (split_name l)) = []) lines.
Proof.
  intros R a lines k g.
  assert (Hmid : Forall (fun l => snd (fst (split_name l)) = [])
                   (map strip (filter (fun l => truthy (strip l)) lines)) <->
                 Forall (fun l => snd (fst (split_name l)) = []) lines).
  { apply MainSpec.forall_names.
    - intros l E. rewrite (SplitFacts.split_empty l E). reflexivity.
    - intros l. rewrite TallyFacts.middle_strip. reflexivity. }
  unfold main.
  destruct (filter (fun l => truthy (strip l)) lines) as [|l0 rest] eqn:Ef.
  { simpl. split; [discriminate|]. intros [Hex _].
    apply TallyFacts.blank_filter in Ef. rewrite Exists_exists in Hex.
    destruct Hex as (l & Hin & Hl). rewrite Forall_forall in Ef. exfalso. exact (Hl (Ef l Hin)). }
  destruct (MainSpec.exists_names lines ltac:(rewrite Ef; discriminate)) as [Hex1 Hex2].
  rewrite Ef in Hex1.
  pose proof (MainSpec.build_fails_iff _ Hex1) as Hiff. rewrite Hmid in Hiff.
  simpl negb. cbv iota.
  destruct (MainFacts.build_cases (map strip (l0 :: rest))) as [(ps & E & _)|E]; rewrite E.
  - split.
    + intros H. exfalso. cbv zeta in H. exact (MainSpec.session_not_exited _ _ _ _ H).
    + intros [_ H]. apply Hiff in H. congruence.
  - split; [intros _; split; [exact Hex2|apply Hiff, E]|reflexivity].
Qed.


(** [--debug] does not stop [main]: with it, [main] ends the same way as
    without it and prints the same lines, after the dump of the three
    pools (a header line and one line per key for each pool).  When the
    pools cannot be built nothing is dumped. *)
Theorem main_debug_prepends_dump : forall (R : random_source) a lines k (g : rng R),
  let a0 := mkArgs (count a) (min_len a) (max_len a) (seed a) false in
  let a1 := mkArgs (count a) (min_len a) (max_len a) (seed a) true in
  fst (main R a1 lines k g) = fst (main R a0 lines k g) /\
  exists dump, snd (main R a1 lines k g) = dump ++ snd (main R a0 lines k g) /\
    match build_weighted_pools (map strip (filter (fun l => truthy (strip l)) lines)) with
    | inl (pc, mc, sc) =>
        List.length dump = (3 + List.length pc + List.length mc + List.length sc)%nat
    | inr _ => dump = []
    end.
Proof.
  intros R a lines k g a0 a1. unfold main, a0, a1. cbn [seed debug count min_len max_len].
  set (g' := match seed a with Some s => seed_state R s | None => g end).
  set (names := map strip (filter (fun l => truthy (strip l)) lines)).
  destruct (negb (truthy names)) eqn:En.
  { assert (E : names = []) by (destruct names; [reflexivity|discriminate]).
    rewrite E. simpl. split; [reflexivity|]. exists []. split; reflexivity. }
  destruct (MainFacts.build_cases names) as [(ps & Eb & _)|Eb]; rewrite Eb.
  2: { simpl. destruct insufficient_msg; (split; [reflexivity|exists []; split; reflexivity]). }
  destruct ps as [[pc mc] sc].
  set (gen := if 0 <? count a
              then finite_mode (Z.to_nat (count a)) k (RefP, RefM, RefS) (min_len a) (max_len a)
              else print banner ;;;
                   infinite_mode k (RefP, RefM, RefS) (min_len a) (max_len a)).
  assert (Hgen : SessionFacts.framed R gen).
  { subst gen. destruct (0 <? count a).
    - apply SessionFacts.framed_finite_mode.
    - apply SessionFacts.framed_bind; [apply SessionFacts.framed_print|intros _].
      apply SessionFacts.framed_infinite_mode. }
  cbv zeta.
  destruct (SessionFacts.dump_counters_len R (u "Prefix") RefP (mkWorld (pc, mc, sc) g' []))
    as (l1 & E1 & L1).
  destruct (SessionFacts.dump_counters_len R (u "Middle") RefM (mkWorld (pc, mc, sc) g' l1))
    as (l2 & E2 & L2).
  destruct (SessionFacts.dump_counters_len R (u "Suffix") RefS
              (mkWorld (pc, mc, sc) g' (l1 ++ l2))) as (l3 & E3 & L3).
  simpl in E1, E2, E3, L1, L2, L3.
  assert (Hd : (dump_counters (u "Prefix") RefP ;;; dump_counters (u "Middle") RefM ;;;
                dump_counters (u "Suffix") RefS) (mkWorld (pc, mc, sc) g' []) =
               (inl tt, mkWorld (pc, mc, sc) g' (l1 ++ l2 ++ l3))).
  { unfold bind. rewrite E1. simpl. rewrite E2. simpl. rewrite E3. simpl.
    rewrite app_assoc. reflexivity. }
  rewrite (MainSpec.bind_inl _ _ _ _ _ Hd).
  change ((ret tt ;;; gen) (mkWorld (pc, mc, sc) g' [])) with (gen (mkWorld (pc, mc, sc) g' [])).
  rewrite (Hgen (pc, mc, sc) g' (l1 ++ l2 ++ l3)).
  destruct (gen (mkWorld (pc, mc, sc) g' [])) as [[x|e] w]; simpl in *;
    (split; [reflexivity|]); exists (l1 ++ l2 ++ l3); (split; [reflexivity|]);
    rewrite !length_app; lia.
Qed.

(** ** cleaner.py *)

(** When the input file can be read and the output file written,
    [clean_ebn_debug] writes, one per line, the trimmed lines of the input
    after the first one that are not empty and contain neither ['.'] nor
    ['…'], and reports how many there are.  Each written line is trimmed,
    not empty, without ['.'], ['…'] or a line break. *)
Theorem cleaner_output : forall s,
  let cl := filter (fun line => truthy line && negb (contains ELLIPSIS line || contains 46 line))
              (map strip (tl (readlines_text s))) in
  clean_ebn_debug (mkCleanerEnv (Text s) true None) =
    (inl tt, [u "Successfully cleaned file. Output written to chapters/ebnReady.txt";
              u "Processed " ++ str_of_Z (Z.of_nat (List.length cl)) ++ u " valid lines."],
     Some (write_lines cl)) /\
  Forall (fun l => strip l = l /\ l <> [] /\ ~ In ELLIPSIS l /\ ~ In 46 l /\
                   ~ In 10 l /\ ~ In 13 l) cl.
Proof.
  intros s cl. pose proof (CleanerFacts.clean_loop_lines s) as H.
  rewrite CleanerFacts.clean_loop_first in H.
  unfold clean_ebn_debug. simpl. rewrite CleanerFacts.clean_loop_first.
  split; [reflexivity|].
  eapply Forall_impl; [|exact H].
  intros l (H1 & H2 & H3 & H4). unfold CleanerFacts.keep_line in H2.
  destruct l as [|z l']; [discriminate|].
  apply andb_true_iff in H2 as [_ H2]. apply negb_true_iff, orb_false_iff in H2 as [H5 H6].
  unfold contains in H5, H6.
  split; [exact H1|]. split; [discriminate|].
  split; [intros Hin; assert (E : existsb (Z.eqb ELLIPSIS) (z :: l') = true)
            by (apply existsb_exists; exists ELLIPSIS; split; [exact Hin|apply Z.eqb_refl]);
          congruence|].
  split; [intros Hin; assert (E : existsb (Z.eqb 46) (z :: l') = true)
            by (apply existsb_exists; exists 46; split; [exact Hin|apply Z.eqb_refl]);
          congruence|].
  split; assumption.
Qed.

(** Run on the file it wrote, the cleaner writes the same lines without
    the first one: the first line of its input is always dropped. *)
Theorem cleaner_rerun : forall s,
  match clean_ebn_debug (mkCleanerEnv (Text s) true None) with
  | (_, _, Some t) =>
      exists cl, t = write_lines cl /\
        snd (clean_ebn_debug (mkCleanerEnv (Text t) true None)) = Some (write_lines (tl cl))
  | _ => False
  end.
Proof.
  intros s. unfold clean_ebn_debug at 1. simpl.
  exists (clean_loop 0 (readlines_text s)). split; [reflexivity|].
  unfold clean_ebn_debug. simpl.
  rewrite CleanerFacts.clean_written by apply CleanerFacts.clean_loop_lines. reflexivity.
Qed.

(** What the GUI reads from the file the cleaner wrote
    ([[ln.strip() for ln in fh if ln.strip()]]) is exactly the list of
    lines written, and their number is the one the cleaner reports. *)
Theorem gui_reads_cleaner_output : forall s,
  match clean_ebn_debug (mkCleanerEnv (Text s) true None) with
  | (_, [_; processed], Some t) =>
      write_lines (read_names t) = t /\
      processed = u "Processed " ++ str_of_Z (Z.of_nat (List.length (read_names t)))
                  ++ u " valid lines."
  | _ => False
  end.
Proof.
  intros s. unfold clean_ebn_debug. simpl.
  rewrite CleanerFacts.read_names_written by apply CleanerFacts.clean_loop_lines.
  split; reflexivity.
Qed.

(** ** Instances of the hypotheses of the further properties *)

(** [weighted_choice_select] on the middle pool {"b": 1, "bb": 1} with
    [random()] = 1/2: [x = 1], and "bb" is picked. *)
Lemma weighted_choice_select_witness :
  let w := @mkWorld dyadic_source
             ([(u "a", 2)], [(u "b", 1); (u "bb", 1)], [(u "c", 2)]) stream_one_short [] in
  let c := deref (store w) RefM in
  let cum := accumulate 0 (map snd c) in
  let total := nth (List.length c - 1) cum 0 in
  GenFacts.pool_ok c /\
  random dyadic_source (rnd w) = (2 ^ 52, (fst stream_one_short, 1%nat)) /\
  floor_scaled dyadic_source (2 ^ 52) total < total /\
  exists i, (i < List.length c)%nat /\
    weighted_choice RefM w =
      (inl (nth i (map fst c) []),
       @mkWorld dyadic_source (store w) (fst stream_one_short, 1%nat) (out w)) /\
    (forall j, (j < i)%nat -> nth j cum 0 <= floor_scaled dyadic_source (2 ^ 52) total) /\
    floor_scaled dyadic_source (2 ^ 52) total < nth i cum 0.
Proof.
  intros w c cum total.
  assert (H1 : GenFacts.pool_ok c) by (apply RecombFacts.pool_okb_spec; reflexivity).
  assert (H2 : random dyadic_source (rnd w) = (2 ^ 52, (fst stream_one_short, 1%nat)))
    by reflexivity.
  assert (H3 : floor_scaled dyadic_source (2 ^ 52) total < total) by (vm_compute; reflexivity).
  split; [exact H1|]. split; [exact H2|]. split; [exact H3|].
  exact (weighted_choice_select dyadic_source RefM w _ _ H1 H2 H3).
Defined.

(** [weighted_choice_empty] on an empty prefix Counter. *)
Lemma weighted_choice_empty_witness :
  let w := @mkWorld dyadic_source ([], [(u "b", 1)], [(u "c", 1)]) stream_one_short [] in
  deref (store w) RefP = [] /\
  weighted_choice RefP w = (inr (IndexError "list index out of range"), w).
Proof.
  intros w. assert (H : deref (store w) RefP = []) by reflexivity.
  split; [exact H|]. exact (weighted_choice_empty dyadic_source RefP w H).
Defined.

(** [generated_name_recombines] on the corpus "marco", "luis", "ana"
    with the seed 7. *)
Lemma generated_name_recombines_witness :
  let names := [u "marco"; u "luis"; u "ana"] in
  let w := @mkWorld dyadic_source
             (match build_weighted_pools names with inl ps => ps | inr _ => ([], [], []) end)
             (seed_state dyadic_source 7) [] in
  let name := match fst (generate_name (RefP, RefM, RefS) 2 20 w) with
              | inl n => n | inr _ => [] end in
  build_weighted_pools names = inl (store w) /\
  fst (generate_name (RefP, RefM, RefS) 2 20 w) = inl name /\
  exists r1 r2 r3, In r1 names /\ In r2 names /\ In r3 names /\
    name = fst (fst (split_name r1)) ++ snd (fst (split_name r2)) ++ snd (split_name r3) /\
    in_bounds 2 20 name = true.
Proof.
  intros names w name.
  assert (H1 : build_weighted_pools names = inl (store w)) by (vm_compute; reflexivity).
  assert (H2 : fst (generate_name (RefP, RefM, RefS) 2 20 w) = inl name)
    by (vm_compute; reflexivity).
  split; [exact H1|]. split; [exact H2|].
  exact (generated_name_recombines dyadic_source names 2 20 w name H1 H2).
Defined.

(** [gui_names_from_chapter] with one chapter file holding the names
    "marco", "luis", "ana", selected, and the seed 7. *)
Lemma gui_names_from_chapter_witness :
  let st := mkGui [u "ebnReady.txt"] (Some 0%nat) [] in
  let files := fun _ : ustr => Text (write_lines [u "marco"; u "luis"; u "ana"]) in
  let g := seed_state dyadic_source 7 in
  generate dyadic_source st files g =
    (None, snd (fst (generate dyadic_source st files g)), snd (generate dyadic_source st files g)) /\
  exists chapter text, selected_chapter st = Some chapter /\ files chapter = Text text /\
    Forall (fun name => exists r1 r2 r3,
      In r1 (read_names text) /\ In r2 (read_names text) /\ In r3 (read_names text) /\
      name = fst (fst (split_name r1)) ++ snd (fst (split_name r2)) ++ snd (split_name r3))
      (names_box (snd (fst (generate dyadic_source st files g)))).
Proof.
  intros st files g.
  assert (H1 : generate dyadic_source st files g =
    (None, snd (fst (generate dyadic_source st files g)), snd (generate dyadic_source st files g))).
  { assert (H : fst (fst (generate dyadic_source st files g)) = None) by (vm_compute; reflexivity).
    destruct (generate dyadic_source st files g) as [[d st'] g']. simpl in H. subst d.
    reflexivity. }
  split; [exact H1|].
  exact (gui_names_from_chapter dyadic_source st files g _ _ H1).
Defined.

(** [split_name_padding] on "marco" with a space before it and a tab
    after it. *)
Lemma split_name_padding_witness :
  Forall (fun c => is_space c = true) (u " ") /\ Forall (fun c => is_space c = true) [9] /\
  split_name (u " " ++ u "marco" ++ [9]) = split_name (u "marco").
Proof.
  assert (H1 : Forall (fun c => is_space c = true) (u " ")) by repeat constructor.
  assert (H2 : Forall (fun c => is_space c = true) [9]) by repeat constructor.
  split; [exact H1|]. split; [exact H2|].
  exact (split_name_padding (u " ") (u "marco") [9] H1 H2).
Defined.

